(** * Payment server: order lifecycle, locks, idempotency and wallet ledger

    A shallow embedding of the payment server's core (firebase.js,
    utils/time.js, utils/lock.js, routes/orders.js, routes/payments.js) and
    the properties that its specification states about it.

    The Realtime Database is a record of finite maps, one per collection;
    the in-process [lockCache] of a server instance and its clock live in
    the same record. Every asynchronous function of the source is a
    computation in a small state-and-exception monad over that record. A
    store round trip asks an environment what the store answers: success, a
    transaction that resolves uncommitted, or a thrown error. Requests are
    served one at a time, each to its end; the clock moves when a function
    sleeps and between requests. *)

From stdpp Require Import gmap strings list fin_maps.
From Stdlib Require Import ZArith Lia.

Local Open Scope Z_scope.

(** ** Data model *)

(** Order status, [config.STATUS] restricted to the values the routes write. *)
Inductive Status := PENDING | SUCCESS | CANCELLED | EXPIRED.

Global Instance Status_eq_dec : EqDecision Status.
Proof. solve_decision. Defined.


(** A JSON leaf as the handlers store it in annotations and results. *)
Inductive JsVal := JUndefined | JNum (z : Z) | JStr (s : string).

Global Instance JsVal_eq_dec : EqDecision JsVal.
Proof. solve_decision. Defined.

(** A lock token: the sixteen random bytes of [crypto.randomBytes(16)] read
    as a number. Its hexadecimal rendering is never the empty string, so a
    token is always truthy. *)
Definition Token := N.

(** [payments/{orderId}]. Amounts are whole rupees, on which JavaScript
    arithmetic is exact. The fields every transition reads are typed; the
    fields later merged in by [update] live in [o_notes]. The display-only
    fields (userPhone, userName, upiName, metadata) are left out. *)
Record Order := mkOrder {
  o_orderId : string;
  o_amount : Z;
  o_userId : string;
  o_upiId : string;
  o_status : Status;
  o_createdAt : Z;
  o_expiresAt : option Z;
  o_updatedAt : option Z;
  o_notes : gmap string JsVal
}.

(** One entry of [wallet/{userId}/history]. *)
Record Transaction := mkTransaction {
  t_orderId : string;
  t_amount : Z;
  t_type : string;
  t_timestamp : Z;
  t_previousBalance : Z;
  t_newBalance : Z
}.

(** [wallet/{userId}]. [balance] is absent on a node that only a history
    write created; readers take [balance || 0]. *)
Record Wallet := mkWallet {
  balance : option Z;
  w_updatedAt : option Z;
  w_createdAt : option Z;
  history : gmap string Transaction
}.

Definition balanceOf (w : Wallet) : Z := default 0 (balance w).

(** [system/locks/{lockKey}]. *)
Record Lock := mkLock {
  token : Token;
  acquiredAt : Z;
  l_expiresAt : Z;
  timeoutMs : Z;
  previousToken : option Token
}.

(** [system/idempotency/{key}]. *)
Record IdemRecord := mkIdemRecord {
  i_result : JsVal;
  i_expiresAt : Z;
  storedAt : Z;
  i_key : string
}.

(** The entries of the in-process [lockCache] map: [acquireLock] stores
    [{token, expiresAt, acquiredAt}], [withIdempotency] stores
    [{result, expiresAt}] under an [idempotency:] key of the same map. *)
Inductive CacheEntry :=
| CLock (tok : Token) (expiresAt : Z) (acquired : Z)
| CIdem (result : JsVal) (expiresAt : Z).

Definition c_expiresAt (e : CacheEntry) : Z :=
  match e with CLock _ x _ => x | CIdem _ x => x end.

(** [cached.token]: undefined on an idempotency entry. *)
Definition c_token (e : CacheEntry) : option Token :=
  match e with CLock t _ _ => Some t | CIdem _ _ => None end.

(** [cached.result]: undefined on a lock entry. *)
Definition c_result (e : CacheEntry) : JsVal :=
  match e with CLock _ _ _ => JUndefined | CIdem r _ => r end.

(** Committed writes to the two ledgers, oldest first; an order write is
    logged with the status it replaces. The log is instrumentation: no
    function reads it. *)
Inductive Event :=
| OrderWrite (orderId : string) (previous : option Status) (status : Status)
| BalanceCommit (userId : string) (amount : Z)
| HistoryWrite (userId : string) (orderId : string).

Global Instance Event_eq_dec : EqDecision Event.
Proof. solve_decision. Defined.

(** The store, the in-process state of one server instance, the clock, and
    the counters that index the environment. *)
Record World := mkWorld {
  payments : gmap string Order;
  wallets : gmap string Wallet;
  locks : gmap string Lock;
  idempotency : gmap string IdemRecord;
  upiDetails : option string;
  lockCache : gmap string CacheEntry;
  cleanupInterval : bool;
  clock : Z;
  calls : nat;
  draws : nat;
  journal : list Event
}.

Definition set_payments (f : gmap string Order → gmap string Order) (w : World) : World :=
  mkWorld (f (payments w)) (wallets w) (locks w) (idempotency w) (upiDetails w)
          (lockCache w) (cleanupInterval w) (clock w) (calls w) (draws w) (journal w).

Definition set_wallets (f : gmap string Wallet → gmap string Wallet) (w : World) : World :=
  mkWorld (payments w) (f (wallets w)) (locks w) (idempotency w) (upiDetails w)
          (lockCache w) (cleanupInterval w) (clock w) (calls w) (draws w) (journal w).

Definition set_locks (f : gmap string Lock → gmap string Lock) (w : World) : World :=
  mkWorld (payments w) (wallets w) (f (locks w)) (idempotency w) (upiDetails w)
          (lockCache w) (cleanupInterval w) (clock w) (calls w) (draws w) (journal w).

Definition set_idempotency (f : gmap string IdemRecord → gmap string IdemRecord)
    (w : World) : World :=
  mkWorld (payments w) (wallets w) (locks w) (f (idempotency w)) (upiDetails w)
          (lockCache w) (cleanupInterval w) (clock w) (calls w) (draws w) (journal w).

Definition set_lockCache (f : gmap string CacheEntry → gmap string CacheEntry)
    (w : World) : World :=
  mkWorld (payments w) (wallets w) (locks w) (idempotency w) (upiDetails w)
          (f (lockCache w)) (cleanupInterval w) (clock w) (calls w) (draws w) (journal w).

Definition set_cleanupInterval (b : bool) (w : World) : World :=
  mkWorld (payments w) (wallets w) (locks w) (idempotency w) (upiDetails w)
          (lockCache w) b (clock w) (calls w) (draws w) (journal w).

Definition set_clock (f : Z → Z) (w : World) : World :=
  mkWorld (payments w) (wallets w) (locks w) (idempotency w) (upiDetails w)
          (lockCache w) (cleanupInterval w) (f (clock w)) (calls w) (draws w) (journal w).

Definition set_calls (f : nat → nat) (w : World) : World :=
  mkWorld (payments w) (wallets w) (locks w) (idempotency w) (upiDetails w)
          (lockCache w) (cleanupInterval w) (clock w) (f (calls w)) (draws w) (journal w).

Definition set_draws (f : nat → nat) (w : World) : World :=
  mkWorld (payments w) (wallets w) (locks w) (idempotency w) (upiDetails w)
          (lockCache w) (cleanupInterval w) (clock w) (calls w) (f (draws w)) (journal w).

Definition log_event (e : Event) (w : World) : World :=
  mkWorld (payments w) (wallets w) (locks w) (idempotency w) (upiDetails w)
          (lockCache w) (cleanupInterval w) (clock w) (calls w) (draws w) (journal w ++ [e]).

(** What the store answers to one round trip. [Abort] is a transaction that
    resolves with [committed = false]; plain reads and writes know only
    success and [Fault]. *)
Inductive Outcome := Ok | Abort | Fault.

Global Instance Outcome_eq_dec : EqDecision Outcome.
Proof. solve_decision. Defined.

(** The environment of a run: the answer to the n-th store round trip and
    the n-th draw of the random source. *)
Record Env := mkEnv {
  outcome : nat → Outcome;
  random : nat → Token
}.

(** [config.js], the constants the core reads. *)
Record Config := mkConfig {
  ORDER_EXPIRY_MINUTES : Z;
  ORDER_LOCK_TIMEOUT : Z;
  PAYMENT_VERIFICATION_TIMEOUT : Z
}.

Definition config_development : Config := mkConfig 5 30000 45000.
Definition config_production : Config := mkConfig 10 30000 45000.
Definition config_staging : Config := mkConfig 2 30000 45000.

(** ** The monad of asynchronous functions *)

Inductive Res (A : Type) :=
| Val (a : A)
| Throw (message : string).
Arguments Val {A} a.
Arguments Throw {A} message.

Definition M (A : Type) : Type := World → Res A * World.

Definition ret {A} (a : A) : M A := fun w => (Val a, w).

Definition bind {A B} (m : M A) (k : A → M B) : M B :=
  fun w => match m w with
           | (Val a, w') => k a w'
           | (Throw e, w') => (Throw e, w')
           end.

Definition throw {A} (e : string) : M A := fun w => (Throw e, w).

(** [try { m } catch (e) { h e }] *)
Definition try_catch {A} (m : M A) (h : string → M A) : M A :=
  fun w => match m w with
           | (Val a, w') => (Val a, w')
           | (Throw e, w') => h e w'
           end.

(** [try { m } finally { f }] *)
Definition try_finally {A} (m : M A) (f : M unit) : M A :=
  fun w => match m w with
           | (r, w') => match f w' with
                        | (Val _, w'') => (r, w'')
                        | (Throw e, w'') => (Throw e, w'')
                        end
           end.

Definition gets {A} (f : World → A) : M A := fun w => (Val (f w), w).
Definition modify (f : World → World) : M unit := fun w => (Val tt, f w).

Notation "'let*' x ':=' c 'in' k" := (bind c (fun x => k))
  (at level 10, x pattern, c at level 100, k at level 200).
Notation "c ';;' k" := (bind c (fun _ => k))
  (at level 100, k at level 200, right associativity).

(** [Date.now()]. The clock moves when a function sleeps and between
    requests; a store round trip takes no time. *)
Definition Date_now : M Z := gets clock.

(** [await new Promise(resolve => setTimeout(resolve, ms))] *)
Definition sleep (ms : Z) : M unit := modify (set_clock (fun t => t + ms)).

(** ** firebase.js *)

Section Firebase.
Variable env : Env.

(** One round trip to the store: the environment's answer, and the round
    trip counted. *)
Definition roundTrip : M Outcome :=
  fun w => (Val (outcome env (calls w)), set_calls S w).

Definition store_unavailable : string := "store unavailable".

(** [getUPIDetails]: the [upiId] of [settings/upiDetails]. *)
Definition getUPIDetails : M string :=
  let* oc := roundTrip in
  match oc with
  | Fault => throw store_unavailable
  | _ =>
    let* snapshot := gets upiDetails in
    match snapshot with
    | None => throw "UPI details not found in Firebase"
    | Some upi => ret upi
    end
  end.

(** [getPaymentOrder] *)
Definition getPaymentOrder (orderId : string) : M (option Order) :=
  let* oc := roundTrip in
  match oc with
  | Fault => throw store_unavailable
  | _ => gets (fun w => payments w !! orderId)
  end.

(** [orderRef.update({status, updatedAt, ...updateData})]: the fields given
    replace the stored ones, the others stay. On a path that holds no order
    the write creates a node of the given fields alone; its other fields
    read as empty. *)
Definition apply_update (orderId : string) (status : Status) (now : Z)
    (updateData : gmap string JsVal) (cur : option Order) : Order :=
  match cur with
  | Some o =>
    mkOrder (o_orderId o) (o_amount o) (o_userId o) (o_upiId o) status
            (o_createdAt o) (o_expiresAt o) (Some now) (updateData ∪ o_notes o)
  | None => mkOrder "" 0 "" "" status 0 None (Some now) updateData
  end.

(** [updatePaymentOrder] *)
Definition updatePaymentOrder (orderId : string) (status : Status)
    (updateData : gmap string JsVal) : M unit :=
  let* oc := roundTrip in
  match oc with
  | Fault => throw store_unavailable
  | _ =>
    let* now := Date_now in
    let* previous := gets (fun w => o_status <$> payments w !! orderId) in
    modify (set_payments (fun p =>
      <[orderId := apply_update orderId status now updateData (p !! orderId)]> p)) ;;
    modify (log_event (OrderWrite orderId previous status))
  end.

(** The update function of the wallet transaction. *)
Definition credit_wallet (amount now : Z) (currentWallet : option Wallet) : Wallet :=
  match currentWallet with
  | None => mkWallet (Some amount) (Some now) (Some now) ∅
  | Some cw =>
    mkWallet (Some (balanceOf cw + amount)) (Some now) (w_createdAt cw) (history cw)
  end.

(** [historyRef.set(tx)] at [wallet/{userId}/history/{orderId}]. *)
Definition set_history (orderId : string) (tx : Transaction)
    (cur : option Wallet) : Wallet :=
  match cur with
  | Some cw =>
    mkWallet (balance cw) (w_updatedAt cw) (w_createdAt cw) (<[orderId := tx]> (history cw))
  | None => mkWallet None None None {[orderId := tx]}
  end.

(** [updateWalletBalance]: the balance transaction, then the history write.
    The value returned is the transaction's snapshot. *)
Definition updateWalletBalance (userId : string) (amount : Z) (orderId : string)
    (transactionType : string) : M Wallet :=
  let* oc := roundTrip in
  match oc with
  | Fault => throw store_unavailable
  | Abort => throw "Wallet update transaction failed"
  | Ok =>
    let* now := Date_now in
    let* currentWallet := gets (fun w => wallets w !! userId) in
    let snapshot := credit_wallet amount now currentWallet in
    modify (set_wallets <[userId := snapshot]>) ;;
    modify (log_event (BalanceCommit userId amount)) ;;
    let* oc' := roundTrip in
    match oc' with
    | Fault => throw store_unavailable
    | _ =>
      let* now' := Date_now in
      let tx := mkTransaction orderId amount transactionType now'
                  (balanceOf snapshot - amount) (balanceOf snapshot) in
      modify (set_wallets (fun ws => <[userId := set_history orderId tx (ws !! userId)]> ws)) ;;
      modify (log_event (HistoryWrite userId orderId)) ;;
      ret snapshot
    end
  end.

(** [getWalletBalance] *)
Definition getWalletBalance (userId : string) : M (option Wallet) :=
  let* oc := roundTrip in
  match oc with
  | Fault => throw store_unavailable
  | _ => gets (fun w => wallets w !! userId)
  end.

End Firebase.

(** ** utils/time.js *)

Definition calculateExpiryTime (createdAt expiryMinutes : Z) : Z :=
  createdAt + expiryMinutes * 60 * 1000.

(** [checkExpiry], with the reading of the clock made a parameter. *)
Definition checkExpiry_at (currentTime createdAt expiryMinutes : Z) : bool :=
  currentTime >? calculateExpiryTime createdAt expiryMinutes.

Definition checkExpiry (createdAt expiryMinutes : Z) : M bool :=
  let* currentTime := Date_now in
  ret (checkExpiry_at currentTime createdAt expiryMinutes).

(** [getRemainingTime(...).totalMs] and [.isExpired] *)
Definition remainingMs_at (currentTime createdAt expiryMinutes : Z) : Z :=
  Z.max 0 (calculateExpiryTime createdAt expiryMinutes - currentTime).

Definition remaining_isExpired_at (currentTime createdAt expiryMinutes : Z) : bool :=
  remainingMs_at currentTime createdAt expiryMinutes =? 0.

(** ** utils/lock.js *)

Definition DEFAULT_LOCK_TIMEOUT : Z := 30000.
Definition MAX_LOCK_ATTEMPTS : nat := 3.
Definition LOCK_RETRY_DELAY : Z := 1000.
Definition IDEMPOTENCY_TTL : Z := 5 * 60 * 1000.

(** [cached && cached.expiresAt > Date.now()] *)
Definition cache_live (now : Z) (cached : option CacheEntry) : bool :=
  match cached with
  | Some c => c_expiresAt c >? now
  | None => false
  end.

(** The update function of the acquiring transaction: a free or an expired
    lock is replaced by the caller's record, a live one is written back. *)
Definition install (lockToken : Token) (now lockExpiresAt timeout : Z)
    (currentLock : option Lock) : Lock :=
  match currentLock with
  | None => mkLock lockToken now lockExpiresAt timeout None
  | Some cl =>
    if l_expiresAt cl <? now
    then mkLock lockToken now lockExpiresAt timeout (Some (token cl))
    else cl
  end.

(** The update function of the releasing transaction. *)
Definition clear (lockToken : option Token) (currentLock : option Lock) : option Lock :=
  match currentLock with
  | None => None
  | Some cl =>
    match lockToken with
    | Some t => if decide (token cl ≠ t) then Some cl else None
    | None => None
    end
  end.

(** [memoryKey] of [withIdempotency] *)
Definition memoryKey (idempotencyKey : string) : string :=
  "idempotency:" +:+ idempotencyKey.

Section LockJs.
Variable env : Env.

(** [cleanupExpiredLocks]: drops every cache entry with [expiresAt < now]. *)
Definition cleanupExpiredLocks : M unit :=
  let* now := Date_now in
  modify (set_lockCache (filter (fun kv => ¬ (c_expiresAt kv.2 < now)))).

Definition startLockCleanup : M unit := modify (set_cleanupInterval true).
Definition stopLockCleanup : M unit := modify (set_cleanupInterval false).

Definition generateLockToken : M Token :=
  fun w => (Val (random env (draws w)), set_draws S w).

(** The [for] loop of [acquireLock]; [remaining] counts the attempts left,
    so the running attempt is [maxAttempts - remaining + 1]. *)
Fixpoint acquireAttempts (lockKey : string) (lockToken : Token)
    (lockExpiresAt timeout : Z) (maxAttempts remaining : nat) : M (option Token) :=
  match remaining with
  | O => ret None
  | S rest =>
    let attempt := (maxAttempts - rest)%nat in
    let backoff := sleep (LOCK_RETRY_DELAY * Z.of_nat attempt) in
    let retry :=
      (if decide (attempt < maxAttempts)%nat then backoff else ret tt) ;;
      acquireAttempts lockKey lockToken lockExpiresAt timeout maxAttempts rest in
    let* oc := roundTrip env in
    match oc with
    | Fault =>
      if decide (attempt = maxAttempts) then throw store_unavailable
      else backoff ;;
           acquireAttempts lockKey lockToken lockExpiresAt timeout maxAttempts rest
    | Abort => retry
    | Ok =>
      let* now := Date_now in
      let* currentLock := gets (fun w => locks w !! lockKey) in
      let installed := install lockToken now lockExpiresAt timeout currentLock in
      modify (set_locks <[lockKey := installed]>) ;;
      if decide (token installed = lockToken) then
        let* acquired := Date_now in
        modify (set_lockCache <[lockKey := CLock lockToken lockExpiresAt acquired]>) ;;
        startLockCleanup ;;
        ret (Some lockToken)
      else retry
    end
  end.

(** [acquireLock]: the token on success, [None] for the source's [false]. *)
Definition acquireLock (lockKey : string) (timeout : Z) (maxAttempts : nat)
    : M (option Token) :=
  let* lockToken := generateLockToken in
  let* now := Date_now in
  let lockExpiresAt := now + timeout in
  let* cachedLock := gets (fun w => lockCache w !! lockKey) in
  if cache_live now cachedLock then ret None
  else acquireAttempts lockKey lockToken lockExpiresAt timeout maxAttempts maxAttempts.

(** [releaseLock]; [lockToken = None] is the source's default [null]. *)
Definition releaseLock (lockKey : string) (lockToken : option Token) : M bool :=
  let* cachedLock := gets (fun w => lockCache w !! lockKey) in
  (match cachedLock with
   | Some c =>
     if decide (is_Some lockToken ∧ c_token c = lockToken)
     then modify (set_lockCache (delete lockKey))
     else ret tt
   | None => ret tt
   end) ;;
  let* oc := roundTrip env in
  match oc with
  | Fault => throw store_unavailable
  | Abort => ret false
  | Ok =>
    modify (set_locks (fun ls =>
      match clear lockToken (ls !! lockKey) with
      | Some l => <[lockKey := l]> ls
      | None => delete lockKey ls
      end)) ;;
    ret true
  end.

(** [isLocked] *)
Definition isLocked (lockKey : string) : M bool :=
  let* cachedLock := gets (fun w => lockCache w !! lockKey) in
  let* now := Date_now in
  if cache_live now cachedLock then ret true
  else
    try_catch
      (let* oc := roundTrip env in
       match oc with
       | Fault => throw store_unavailable
       | _ =>
         let* snapshot := gets (fun w => locks w !! lockKey) in
         match snapshot with
         | None => ret false
         | Some lockData =>
           let* now' := Date_now in
           if l_expiresAt lockData <? now'
           then releaseLock lockKey None ;; ret false
           else ret true
         end
       end)
      (fun _ => ret true).

(** [forceReleaseLock] *)
Definition forceReleaseLock (lockKey : string) : M bool :=
  try_catch
    (let* oc := roundTrip env in
     match oc with
     | Fault => throw store_unavailable
     | _ =>
       modify (set_locks (delete lockKey)) ;;
       modify (set_lockCache (delete lockKey)) ;;
       ret true
     end)
    (fun _ => ret false).

(** [withLock] *)
Definition withLock {A} (lockKey : string) (operation : M A) (timeout : Z) : M A :=
  let* lockToken := acquireLock lockKey timeout MAX_LOCK_ATTEMPTS in
  match lockToken with
  | None => throw ("Failed to acquire lock: " +:+ lockKey)
  | Some t => try_finally operation (releaseLock lockKey (Some t) ;; ret tt)
  end.

(** [withIdempotency] *)
Definition withIdempotency (idempotencyKey : string) (operation : M JsVal) : M JsVal :=
  let* cachedResult := gets (fun w => lockCache w !! memoryKey idempotencyKey) in
  match cachedResult with
  | Some c => ret (c_result c)
  | None =>
    let execute :=
      let* result := operation in
      let* now := Date_now in
      let expiresAt := now + IDEMPOTENCY_TTL in
      let* oc := roundTrip env in
      match oc with
      | Fault => throw store_unavailable
      | _ =>
        let* stored := Date_now in
        modify (set_idempotency
          <[idempotencyKey :=
              mkIdemRecord result expiresAt stored (String.substring 0%nat 32%nat idempotencyKey)]>) ;;
        modify (set_lockCache <[memoryKey idempotencyKey := CIdem result expiresAt]>) ;;
        ret result
      end in
    let* oc := roundTrip env in
    match oc with
    | Fault => throw store_unavailable
    | _ =>
      let* snapshot := gets (fun w => idempotency w !! idempotencyKey) in
      let* now := Date_now in
      match snapshot with
      | Some data =>
        if i_expiresAt data >? now then
          modify (set_lockCache
            <[memoryKey idempotencyKey := CIdem (i_result data) (i_expiresAt data)]>) ;;
          ret (i_result data)
        else execute
      | None => execute
      end
    end
  end.

End LockJs.

(** ** The routes *)

(** What a handler sends, as far as the properties read it: the HTTP
    status, the [success] flag, the [error] code, the order status reported
    and the wallet balance reported. *)
Record Response := mkResponse {
  http : Z;
  success : bool;
  error : option string;
  r_status : option Status;
  r_walletBalance : option Z
}.

Definition reject (code : Z) (err : string) : Response :=
  mkResponse code false (Some err) None None.

(** The [amount] of a request body: absent, not a number, or a number. *)
Inductive ReqAmount := AmountMissing | AmountNaN | AmountNum (z : Z).

(** The body of [POST /api/payment/verify]; an absent string field is the
    empty string, which is as falsy. *)
Record VerifyBody := mkVerifyBody {
  v_orderId : string;
  v_transactionId : string;
  v_transactionRef : string;
  v_upiId : string;
  v_amount : ReqAmount;
  v_userId : string;
  v_transactionNote : string
}.

(** [!s] on a string field *)
Definition missing (s : string) : bool := bool_decide (s = "").

(** [!amount] *)
Definition amount_missing (a : ReqAmount) : bool :=
  match a with
  | AmountMissing => true
  | AmountNum z => z =? 0
  | AmountNaN => false
  end.

(** [parseFloat(amount)] with the test [isNaN(amountNum) || amountNum <= 0]:
    the number when it passes. *)
Definition positive_amount (a : ReqAmount) : option Z :=
  match a with
  | AmountNum z => if z <=? 0 then None else Some z
  | _ => None
  end.

(** The lock a verification takes. *)
Definition verifyLockKey (orderId : string) : string := "payment:verify:" +:+ orderId.

(** The lock cancellation and expiry take. *)
Definition orderLockKey (orderId : string) : string := "order:" +:+ orderId.

(** [Math.abs(amountNum - orderAmount) > 0.01], both sides scaled by 100. *)
Definition amount_mismatch (amountNum orderAmount : Z) : bool :=
  Z.abs (amountNum - orderAmount) * 100 >? 1.

(** [order.expiresAt || (order.createdAt + ORDER_EXPIRY_MINUTES * 60 * 1000)] *)
Definition expiresAt_or_default (expiryMinutes : Z) (order : Order) : Z :=
  match o_expiresAt order with
  | Some e => if e =? 0 then o_createdAt order + expiryMinutes * 60 * 1000 else e
  | None => o_createdAt order + expiryMinutes * 60 * 1000
  end.

(** [a || b] on strings *)
Definition or_else (a b : string) : string := if missing a then b else a.

Section Routes.
Variable env : Env.
Variable config : Config.

(** Steps 9 to 11 of [/verify]: mark the order, credit the wallet, release. *)
Definition verify_settle (body : VerifyBody) (amountNum : Z) (lockKey : string)
    : M Response :=
  let orderId := v_orderId body in
  let* verifiedAt := Date_now in
  updatePaymentOrder env orderId SUCCESS
    (list_to_map
       [("verifiedAt", JNum verifiedAt);
        ("transactionId", JStr (v_transactionId body));
        ("transactionRef", JStr (or_else (v_transactionRef body) (v_transactionId body)));
        ("verifiedBy", JStr "SERVER_AUTO_VERIFY");
        ("upiIdUsed", JStr (v_upiId body));
        ("amountReceived", JNum amountNum)]) ;;
  let* walletUpdate :=
    try_catch
      (let* wu := updateWalletBalance env (v_userId body) amountNum orderId "CREDIT" in
       ret (inr wu))
      (fun walletError =>
         updatePaymentOrder env orderId PENDING
           (list_to_map
              [("verificationError", JStr "WALLET_CREDIT_FAILED");
               ("errorDetails", JStr walletError)]) ;;
         releaseLock env lockKey None ;;
         ret (inl (reject 500 "WALLET_CREDIT_ERROR"))) in
  match walletUpdate with
  | inl response => ret response
  | inr wu =>
    releaseLock env lockKey None ;;
    ret (mkResponse 200 true None (Some SUCCESS) (balance wu))
  end.

(** Steps 4 to 8 of [/verify]: the order is PENDING and has not expired.
    Step 7 only logs a warning about the transaction note and step 8 is a
    comment; neither has an effect. *)
Definition verify_matching (body : VerifyBody) (amountNum : Z) (lockKey : string)
    (order : Order) : M Response :=
  let orderId := v_orderId body in
  let* cancelled :=
    if bool_decide (o_status order = CANCELLED) then ret true
    else isLocked env (orderLockKey orderId) in
  if cancelled then
    releaseLock env lockKey None ;;
    ret (reject 400 "ORDER_CANCELLED")
  else if amount_mismatch amountNum (o_amount order) then
    releaseLock env lockKey None ;;
    ret (reject 400 "AMOUNT_MISMATCH")
  else
    let* currentUPIDetails :=
      try_catch
        (let* d := getUPIDetails env in ret (inr d))
        (fun _ =>
           releaseLock env lockKey None ;;
           ret (inl (reject 500 "UPI_VERIFICATION_ERROR"))) in
    match currentUPIDetails with
    | inl response => ret response
    | inr upi =>
      if negb (bool_decide (upi = v_upiId body)) then
        releaseLock env lockKey None ;;
        ret (reject 400 "UPI_MISMATCH")
      else verify_settle body amountNum lockKey
    end.

(** Steps 1 to 3 of [/verify], run with the verification lock held, and
    then the rest. *)
Definition verify_checks (body : VerifyBody) (amountNum : Z) (lockKey : string)
    : M Response :=
  let orderId := v_orderId body in
  let* found := getPaymentOrder env orderId in
  match found with
  | None =>
    releaseLock env lockKey None ;;
    ret (reject 404 "ORDER_NOT_FOUND")
  | Some order =>
    if negb (bool_decide (o_status order = PENDING)) then
      releaseLock env lockKey None ;;
      ret (mkResponse 400 false (Some "ORDER_INVALID_STATUS") (Some (o_status order)) None)
    else
      let* isExpired := checkExpiry (o_createdAt order) (ORDER_EXPIRY_MINUTES config) in
      if isExpired then
        let* now := Date_now in
        updatePaymentOrder env orderId EXPIRED
          (list_to_map
             [("autoExpiredAt", JNum now);
              ("expiryReason", JStr "EXPIRED_BEFORE_VERIFICATION")]) ;;
        releaseLock env lockKey None ;;
        ret (reject 400 "ORDER_EXPIRED")
      else verify_matching body amountNum lockKey order
  end.

(** The outer [catch] of [/verify] and [/cancel]: release the lock if it
    was taken, whatever the release does, and hand the error on. *)
Definition release_and_rethrow (lockKey : string) (e : string) : M Response :=
  try_catch (releaseLock env lockKey None ;; ret tt) (fun _ => ret tt) ;;
  throw e.

(** [POST /api/payment/verify]. A [Throw] is the error handed to
    [next(error)]. *)
Definition verify (body : VerifyBody) : M Response :=
  if missing (v_orderId body) || missing (v_transactionId body)
     || missing (v_upiId body) || amount_missing (v_amount body)
     || missing (v_userId body)
  then ret (reject 400 "VALIDATION_ERROR")
  else
    match positive_amount (v_amount body) with
    | None => ret (reject 400 "VALIDATION_ERROR")
    | Some amountNum =>
      let lockKey := verifyLockKey (v_orderId body) in
      let* lockAcquired :=
        acquireLock env lockKey (PAYMENT_VERIFICATION_TIMEOUT config) MAX_LOCK_ATTEMPTS in
      match lockAcquired with
      | None => ret (reject 409 "VERIFICATION_IN_PROGRESS")
      | Some _ =>
        try_catch
          (verify_checks body amountNum lockKey)
          (release_and_rethrow lockKey)
      end
    end.

(** [POST /api/payment/recheck] *)
Definition recheck (orderId userId : string) : M Response :=
  if missing orderId || missing userId then ret (reject 400 "VALIDATION_ERROR")
  else
    let* found := getPaymentOrder env orderId in
    match found with
    | None => ret (reject 404 "ORDER_NOT_FOUND")
    | Some order =>
      if negb (bool_decide (o_userId order = userId)) then ret (reject 403 "UNAUTHORIZED")
      else
        let* currentTime := Date_now in
        let orderAge := currentTime - o_createdAt order in
        let expiryTime := ORDER_EXPIRY_MINUTES config * 60 * 1000 in
        match o_status order with
        | SUCCESS => ret (mkResponse 200 true None (Some SUCCESS) None)
        | PENDING =>
          if orderAge >? expiryTime then
            try_catch
              (let lockKey := orderLockKey orderId in
               let* lockAcquired :=
                 acquireLock env lockKey (ORDER_LOCK_TIMEOUT config) MAX_LOCK_ATTEMPTS in
               (match lockAcquired with
                | Some _ =>
                  updatePaymentOrder env orderId EXPIRED
                    (list_to_map
                       [("autoExpiredAt", JNum currentTime);
                        ("expiryReason", JStr "EXPIRED_ON_RECHECK")]) ;;
                  releaseLock env lockKey None ;;
                  ret tt
                | None => ret tt
                end) ;;
               ret (mkResponse 400 false (Some "ORDER_EXPIRED") (Some EXPIRED) None))
              (fun _ => ret (mkResponse 200 true None (Some PENDING) None))
          else ret (mkResponse 200 true None (Some PENDING) None)
        | CANCELLED => ret (mkResponse 400 false (Some "ORDER_CANCELLED") (Some CANCELLED) None)
        | EXPIRED => ret (mkResponse 400 false (Some "ORDER_EXPIRED") (Some EXPIRED) None)
        end
    end.

(** [GET /api/order/:orderId]. The result of [acquireLock] is not looked
    at: only a throw skips the expiry write. *)
Definition getOrder (orderId : string) : M Response :=
  if missing orderId then ret (reject 400 "VALIDATION_ERROR")
  else
    let* found := getPaymentOrder env orderId in
    match found with
    | None => ret (reject 404 "ORDER_NOT_FOUND")
    | Some order =>
      let* locked := isLocked env (orderLockKey orderId) in
      if locked then
        ret (mkResponse 400 false (Some "ORDER_LOCKED") (Some (o_status order)) None)
      else
        let* currentTime := Date_now in
        let expiresAt := expiresAt_or_default (ORDER_EXPIRY_MINUTES config) order in
        let remainingTime := Z.max 0 (expiresAt - currentTime) in
        let isExpired := remainingTime =? 0 in
        let* status :=
          if isExpired && bool_decide (o_status order = PENDING) then
            try_catch
              (acquireLock env (orderLockKey orderId) (ORDER_LOCK_TIMEOUT config)
                 MAX_LOCK_ATTEMPTS ;;
               updatePaymentOrder env orderId EXPIRED
                 (list_to_map [("autoExpiredAt", JNum currentTime)]) ;;
               ret EXPIRED)
              (fun _ => ret (o_status order))
          else ret (o_status order) in
        ret (mkResponse 200 true None (Some status) None)
    end.



(** One turn of the loop of [expirePendingOrders]: the count of orders
    expired, after this order. *)
Definition expire_one (currentTime : Z) (expiredCount : nat)
    (entry : string * Order) : M nat :=
  let '(orderId, order) := entry in
  let orderAge := currentTime - o_createdAt order in
  let expiryTime := ORDER_EXPIRY_MINUTES config * 60 * 1000 in
  if orderAge >? expiryTime then
    try_catch
      (let lockKey := orderLockKey orderId in
       let* lockAcquired :=
         acquireLock env lockKey (ORDER_LOCK_TIMEOUT config) MAX_LOCK_ATTEMPTS in
       match lockAcquired with
       | Some _ =>
         updatePaymentOrder env orderId EXPIRED
           (list_to_map
              [("autoExpiredAt", JNum currentTime);
               ("expiryReason", JStr "AUTO_EXPIRED_BY_SYSTEM")]) ;;
         releaseLock env lockKey None ;;
         ret (S expiredCount)
       | None => ret expiredCount
       end)
      (fun _ => ret expiredCount)
  else ret expiredCount.

Fixpoint expire_each (currentTime : Z) (expiredCount : nat)
    (orders : list (string * Order)) : M nat :=
  match orders with
  | [] => ret expiredCount
  | entry :: rest =>
    let* n := expire_one currentTime expiredCount entry in
    expire_each currentTime n rest
  end.

(** The query [orderByChild('status').equalTo('PENDING').limitToFirst(n)];
    the store's key order is the enumeration order of the map. *)
Definition pending_snapshot (batchSize : nat) (p : gmap string Order)
    : list (string * Order) :=
  take batchSize
    (filter (fun kv => o_status kv.2 = PENDING) (map_to_list p)).

(** [expirePendingOrders] *)
Definition expirePendingOrders (batchSize : nat) : M nat :=
  let* oc := roundTrip env in
  match oc with
  | Fault => throw store_unavailable
  | _ =>
    let* orders := gets (fun w => pending_snapshot batchSize (payments w)) in
    match orders with
    | [] => ret O
    | _ =>
      let* currentTime := Date_now in
      expire_each currentTime O orders
    end
  end.

(** [POST /api/order/expire]; [cronSecretOk] is false for a production
    request that does not carry the cron secret. *)
Definition expire (cronSecretOk : bool) (batchSize : nat) : M Response :=
  if negb cronSecretOk then ret (reject 401 "UNAUTHORIZED")
  else
    expirePendingOrders batchSize ;;
    ret (mkResponse 200 true None None None).

End Routes.

(** ** Runs of the server *)






(** The status of an order in the store. *)
Definition status_of (w : World) (orderId : string) : option Status :=
  o_status <$> payments w !! orderId.


(** ** More of the source *)

(** *** utils/time.js: [getRemainingTime] *)

(** What [getRemainingTime] returns, but for the [formatted] string. *)
Record RemainingTime := mkRemainingTime {
  totalMs : Z;
  rt_seconds : Z;
  rt_minutes : Z;
  rt_hours : Z;
  rt_isExpired : bool;
  rt_expiryTime : Z
}.

(** [getRemainingTime], with the reading of the clock made a parameter. On
    the millisecond counts that occur, [Math.floor((ms / d) % m)] is the
    integer quotient taken modulo [m]. *)
Definition getRemainingTime_at (currentTime createdAt expiryMinutes : Z)
    : RemainingTime :=
  let expiryTime := calculateExpiryTime createdAt expiryMinutes in
  let remainingMs := Z.max 0 (expiryTime - currentTime) in
  mkRemainingTime remainingMs
    ((remainingMs / 1000) mod 60)
    ((remainingMs / (1000 * 60)) mod 60)
    ((remainingMs / (1000 * 60 * 60)) mod 24)
    (remainingMs =? 0)
    expiryTime.

Definition getRemainingTime (createdAt expiryMinutes : Z) : M RemainingTime :=
  let* currentTime := Date_now in
  ret (getRemainingTime_at currentTime createdAt expiryMinutes).

(** *** config.js: the amount limits *)

Record Limits := mkLimits {
  MIN_AMOUNT : Z;
  MAX_AMOUNT : Z
}.

Definition limits_development : Limits := mkLimits 10 10000.
Definition limits_production : Limits := mkLimits 50 10000.
Definition limits_staging : Limits := mkLimits 1 1000.

(** [config.validateAmount] *)
Definition validateAmount (limits : Limits) (amount : ReqAmount) : bool :=
  match amount with
  | AmountNum z => (MIN_AMOUNT limits <=? z) && (z <=? MAX_AMOUNT limits)
  | _ => false
  end.

Section MoreOfTheStore.
Variable env : Env.

(** *** firebase.js: [savePaymentOrder] *)

(** [orderRef.set(orderData)]: whatever the path held is replaced. *)
Definition savePaymentOrder (orderId : string) (orderData : Order) : M unit :=
  let* oc := roundTrip env in
  match oc with
  | Fault => throw store_unavailable
  | _ => modify (set_payments <[orderId := orderData]>)
  end.

(** *** utils/lock.js: [getLockInfo], [cleanupIdempotencyKeys] *)

(** What [getLockInfo] adds to the stored record. *)
Record LockInfo := mkLockInfo {
  li_lock : Lock;
  li_isExpired : bool;
  li_remainingMs : Z;
  li_ageMs : Z
}.

(** [getLockInfo]: [None] for the source's [null], also on a store error. *)
Definition getLockInfo (lockKey : string) : M (option LockInfo) :=
  try_catch
    (let* oc := roundTrip env in
     match oc with
     | Fault => throw store_unavailable
     | _ =>
       let* snapshot := gets (fun w => locks w !! lockKey) in
       match snapshot with
       | None => ret None
       | Some lockData =>
         let* now := Date_now in
         ret (Some (mkLockInfo lockData
                      (l_expiresAt lockData <? now)
                      (Z.max 0 (l_expiresAt lockData - now))
                      (now - acquiredAt lockData)))
       end
     end)
    (fun _ => ret None).

(** [cleanupIdempotencyKeys]: one read of the whole collection, and one
    [update] that deletes the expired records when there are any. *)
Definition cleanupIdempotencyKeys : M nat :=
  try_catch
    (let* oc := roundTrip env in
     match oc with
     | Fault => throw store_unavailable
     | _ =>
       let* snapshot := gets idempotency in
       if decide (snapshot = ∅) then ret O
       else
         let* now := Date_now in
         let expired := filter (fun kv => i_expiresAt kv.2 < now) snapshot in
         let cleanupCount := size expired in
         (if decide (0 < cleanupCount)%nat then
            let* oc' := roundTrip env in
            match oc' with
            | Fault => throw store_unavailable
            | _ => modify (set_idempotency (fun m => m ∖ expired))
            end
          else ret tt) ;;
         ret cleanupCount
     end)
    (fun _ => ret O).

End MoreOfTheStore.

(** *** routes/orders.js: [POST /api/order/create] *)

(** The body of [/create], as far as the order depends on it. *)
Record CreateBody := mkCreateBody {
  cr_amount : ReqAmount;
  cr_userId : string
}.

Section Create.
Variable env : Env.
Variable config : Config.
Variable limits : Limits.

(** [/create], from the identifier that [generateOrderId] has returned. *)
Definition create (orderId : string) (body : CreateBody) : M Response :=
  if amount_missing (cr_amount body) || missing (cr_userId body)
  then ret (reject 400 "VALIDATION_ERROR")
  else
    match positive_amount (cr_amount body) with
    | None => ret (reject 400 "VALIDATION_ERROR")
    | Some amountNum =>
      if (amountNum <? MIN_AMOUNT limits) || (amountNum >? MAX_AMOUNT limits)
      then ret (reject 400 "AMOUNT_LIMIT_ERROR")
      else
        let* upiDetails :=
          try_catch
            (let* d := getUPIDetails env in ret (inr d))
            (fun _ => ret (inl (reject 500 "UPI_FETCH_ERROR"))) in
        match upiDetails with
        | inl response => ret response
        | inr upi =>
          let* createdAt := Date_now in
          let* now := Date_now in
          let orderData :=
            mkOrder orderId amountNum (cr_userId body) upi PENDING createdAt
              (Some (now + ORDER_EXPIRY_MINUTES config * 60 * 1000)) None ∅ in
          let* saved :=
            try_catch
              (savePaymentOrder env orderId orderData ;; ret None)
              (fun _ => ret (Some (reject 500 "ORDER_SAVE_ERROR"))) in
          match saved with
          | Some response => ret response
          | None => ret (mkResponse 201 true None (Some PENDING) None)
          end
        end
    end.

End Create.
(** ** Vocabulary of the properties *)

(** [post m w Q]: running [m] from [w] ends in a result and a world that
    satisfy [Q]. Every computation is total, so this is a statement about
    the one run there is. *)
Definition post {A} (m : M A) (w : World) (Q : Res A → World → Prop) : Prop :=
  Q (m w).1 (m w).2.

(** A relation between the world before and the world after that a
    computation respects, whatever the world it starts from. *)
Definition stable {A} (R : relation World) (m : M A) : Prop :=
  ∀ w, R w (m w).2.

(** The projection [f] of the world is unchanged. *)
Definition keeps {B} (f : World → B) : relation World := fun w w' => f w' = f w.

(** The two ledgers of the store and their log. *)
Definition ledgers (w : World) : gmap string Order * gmap string Wallet * list Event :=
  (payments w, wallets w, journal w).

(** No order outside [S] is written. *)
Definition touches (S : string → Prop) : relation World :=
  fun w w' => ∀ orderId, ¬ S orderId → payments w' !! orderId = payments w !! orderId.

(** Only orders that were PENDING are written. *)
Definition only_pending_changed : relation World :=
  fun w w' => ∀ orderId,
    status_of w orderId ≠ Some PENDING → payments w' !! orderId = payments w !! orderId.

(** The store holds a record for [lockKey] that has not expired: what
    [isLocked] reports as held. *)
Definition lock_held (w : World) (lockKey : string) : bool :=
  match locks w !! lockKey with
  | Some l => negb (l_expiresAt l <? clock w)
  | None => false
  end.

(** The store record for [lockKey] is absent or expired: the acquiring
    transaction installs the caller's record. *)
Definition lock_free (w : World) (lockKey : string) : bool :=
  match locks w !! lockKey with
  | Some l => l_expiresAt l <? clock w
  | None => true
  end.





(** *** Sample data *)

(** The environment in which every round trip succeeds; the k-th token drawn
    is [1000 + k]. *)
Definition env_ok : Env := mkEnv (fun _ => Ok) (fun n => (N.of_nat n + 1000)%N).

(** The environment that answers the round trips listed and succeeds on the
    others. *)
Definition env_with (answers : list (nat * Outcome)) : Env :=
  mkEnv (fun n => default Ok ((list_to_map answers : gmap nat Outcome) !! n))
        (fun n => (N.of_nat n + 1000)%N).

(** An order for 100 rupees created at time 0 in development, where orders
    expire after five minutes. *)
Definition order1 : Order :=
  mkOrder "o1" 100 "alice" "shop@upi" PENDING 0 (Some 300000) None ∅.

(** A store that holds [order1] alone, read at [now] by a fresh instance. *)
Definition world_at (now : Z) : World :=
  mkWorld {["o1" := order1]} ∅ ∅ ∅ (Some "shop@upi") ∅ false now 0 0 [].

(** The request that pays [order1]. *)
Definition body1 : VerifyBody :=
  mkVerifyBody "o1" "tx1" "" "shop@upi" (AmountNum 100) "alice" "".

(** A lock record taken at [now] with the given token and timeout. *)
Definition lock_taken (tok : Token) (now timeout : Z) : Lock :=
  mkLock tok now (now + timeout) timeout None.

(** The world after [acquireLock] has installed the caller's record on its
    first attempt. *)
Definition acquired (env : Env) (lockKey : string) (timeout : Z) (w : World) : World :=
  let tok := random env (draws w) in
  set_cleanupInterval true
    (set_lockCache <[lockKey := CLock tok (clock w + timeout) (clock w)]>
       (set_locks
          <[lockKey := mkLock tok (clock w) (clock w + timeout) timeout
                         (token <$> locks w !! lockKey)]>
          (set_calls S (set_draws S w)))).

(** An operation with a visible effect: it credits 100 rupees to the wallet
    of [alice] and returns the balance reached. *)
Definition credit_operation (env : Env) : M JsVal :=
  let* wu := updateWalletBalance env "alice" 100 "o1" "CREDIT" in
  ret (JNum (balanceOf wu)).

(** The environment in which the three attempts of the [acquireLock] that
    starts at round trip [n] are reported as not committed: the lock is
    refused, the store is not at fault. *)
Definition env_refusing (n : nat) : Env :=
  env_with [(n, Abort); (S n, Abort); (S (S n), Abort)].

(** The request passes the validation at the head of [/verify], and
    [amountNum] is the amount it carries. *)
Definition well_formed (body : VerifyBody) (amountNum : Z) : Prop :=
  v_orderId body ≠ "" ∧ v_transactionId body ≠ "" ∧ v_upiId body ≠ "" ∧
  v_userId body ≠ "" ∧ positive_amount (v_amount body) = Some amountNum.

(** The verification lock of the request can be taken at once: no live
    entry in the instance's cache, no live record in the store. *)
Definition verify_lock_available (w : World) (body : VerifyBody) : Prop :=
  cache_live (clock w) (lockCache w !! verifyLockKey (v_orderId body)) = false ∧
  lock_free w (verifyLockKey (v_orderId body)) = true.


(** The order lock of the request is free and the instance knows it: no
    live cache entry, no record in the store. *)
Definition order_lock_absent (w : World) (orderId : string) : Prop :=
  cache_live (clock w) (lockCache w !! orderLockKey orderId) = false ∧
  locks w !! orderLockKey orderId = None.

(** [updateWalletBalance] started at round trip [n] returns: its
    transaction commits and its history write is not refused. *)
Definition credit_succeeds (env : Env) (n : nat) : Prop :=
  outcome env n = Ok ∧ outcome env (S n) ≠ Fault.

(** The round trip of the compensating write when [updateWalletBalance],
    started at round trip [n], throws. *)
Definition rollback_call (env : Env) (n : nat) : nat :=
  if decide (outcome env n = Ok) then S (S n) else S n.

(** What steps 9 to 11 of [/verify] reach from a world whose log is
    [journal0] and whose next round trip is [c], for an order that is
    PENDING: the SUCCESS write is the first ledger write; when the credit
    succeeds the order is SUCCESS and the credit follows the status write in
    the log; when the credit throws and the compensating write lands, the
    order is PENDING again and carries the error annotation; and a success
    response is sent only when the credit succeeded. *)
Definition settled (env : Env) (body : VerifyBody) (amountNum : Z)
    (journal0 : list Event) (c : nat) (r : Res Response) (w' : World) : Prop :=
  let orderId := v_orderId body in
  (∃ rest, journal w' = journal0 ++ OrderWrite orderId (Some PENDING) SUCCESS :: rest) ∧
  (credit_succeeds env (S c) →
   status_of w' orderId = Some SUCCESS ∧
   journal w' = journal0 ++
     [OrderWrite orderId (Some PENDING) SUCCESS;
      BalanceCommit (v_userId body) amountNum;
      HistoryWrite (v_userId body) orderId]) ∧
  (¬ credit_succeeds env (S c) →
   outcome env (rollback_call env (S c)) ≠ Fault →
   ∃ o', payments w' !! orderId = Some o' ∧ o_status o' = PENDING ∧
         o_notes o' !! "verificationError" = Some (JStr "WALLET_CREDIT_FAILED")) ∧
  (∀ response, r = Val response → success response = true →
     credit_succeeds env (S c)).

(** *** Vocabulary of the further properties *)

(** The time [acquireLock] sleeps when every one of the [remaining] attempts
    fails: [LOCK_RETRY_DELAY * attempt] after each attempt but the last. *)
Fixpoint backoff_left (maxAttempts remaining : nat) : Z :=
  match remaining with
  | O => 0
  | S rest =>
    (if decide (maxAttempts - rest < maxAttempts)%nat
     then LOCK_RETRY_DELAY * Z.of_nat (maxAttempts - rest) else 0)
    + backoff_left maxAttempts rest
  end.

(** The time a call of [acquireLock] sleeps at most. *)
Definition total_backoff (maxAttempts : nat) : Z := backoff_left maxAttempts maxAttempts.


(** What a release without a token and [isLocked] leave alone. *)
Definition settled_view (w : World) :=
  (payments w, wallets w, journal w, upiDetails w, clock w, lockCache w).

(** The clock and the cache of the instance. *)
Definition instance_view (w : World) := (clock w, lockCache w).

(** The order is older than the expiry window at [currentTime]. *)
Definition overdue (config : Config) (currentTime : Z) (order : Order) : Prop :=
  ORDER_EXPIRY_MINUTES config * 60 * 1000 < currentTime - o_createdAt order.

(** Every order written has been written as EXPIRED. *)
Definition expires_only : relation World :=
  fun w w' => ∀ orderId,
    payments w' !! orderId = payments w !! orderId ∨
    status_of w' orderId = Some EXPIRED.

(** ** Reasoning about computations *)

Lemma post_ret {A} (a : A) w Q : Q (Val a) w → post (ret a) w Q.
Proof. exact id. Qed.

Lemma post_throw {A} e w (Q : Res A → World → Prop) : Q (Throw e) w → post (throw e) w Q.
Proof. exact id. Qed.

Lemma post_gets {A} (f : World → A) w Q : Q (Val (f w)) w → post (gets f) w Q.
Proof. exact id. Qed.

Lemma post_modify f w Q : Q (Val tt) (f w) → post (modify f) w Q.
Proof. exact id. Qed.

Lemma post_bind {A B} (m : M A) (k : A → M B) w Q :
  post m w (fun r w1 =>
    match r with Val a => post (k a) w1 Q | Throw e => Q (Throw e) w1 end) →
  post (bind m k) w Q.
Proof. unfold post, bind. destruct (m w) as [[a|e] w1]; simpl; auto. Qed.

Lemma post_try_catch {A} (m : M A) h w Q :
  post m w (fun r w1 =>
    match r with Val a => Q (Val a) w1 | Throw e => post (h e) w1 Q end) →
  post (try_catch m h) w Q.
Proof. unfold post, try_catch. destruct (m w) as [[a|e] w1]; simpl; auto. Qed.

Lemma post_mono {A} (m : M A) w (Q Q' : Res A → World → Prop) :
  post m w Q → (∀ r w', Q r w' → Q' r w') → post m w Q'.
Proof. unfold post. auto. Qed.

Lemma post_eq {A} (m : M A) w r w' (Q : Res A → World → Prop) :
  m w = (r, w') → Q r w' → post m w Q.
Proof. unfold post. intros ->. auto. Qed.

Lemma post_roundTrip env w Q :
  Q (Val (outcome env (calls w))) (set_calls S w) → post (roundTrip env) w Q.
Proof. exact id. Qed.

Lemma post_sleep ms w Q :
  Q (Val tt) (set_clock (fun t => t + ms) w) → post (sleep ms) w Q.
Proof. exact id. Qed.

Lemma post_stable {A} R (m : M A) w (Q : Res A → World → Prop) :
  stable R m → (∀ r w', R w w' → Q r w') → post m w Q.
Proof. intros Hs HQ. apply HQ, Hs. Qed.

(** One step of symbolic execution. *)
Ltac wp_step :=
  lazymatch goal with
  | |- post (bind _ _) _ _ => apply post_bind
  | |- post (ret _) _ _ => apply post_ret
  | |- post (throw _) _ _ => apply post_throw
  | |- post (gets _) _ _ => apply post_gets
  | |- post Date_now _ _ => apply post_gets
  | |- post (modify _) _ _ => apply post_modify
  | |- post (sleep _) _ _ => apply post_sleep
  | |- post (roundTrip _) _ _ => apply post_roundTrip
  | |- post (try_catch _ _) _ _ => apply post_try_catch
  | |- post (if ?b then _ else _) _ _ => destruct b eqn:?
  | |- post (match ?x with _ => _ end) _ _ => destruct x eqn:?
  end; cbv beta iota zeta.

Ltac wp := repeat wp_step.

Section Stable.
Context (R : relation World) `{!PreOrder R}.

Lemma stable_ret {A} (a : A) : stable R (ret a).
Proof. intros w. simpl. reflexivity. Qed.

Lemma stable_throw {A} e : stable R (@throw A e).
Proof. intros w. simpl. reflexivity. Qed.

Lemma stable_gets {A} (f : World → A) : stable R (gets f).
Proof. intros w. simpl. reflexivity. Qed.

Lemma stable_bind {A B} (m : M A) (k : A → M B) :
  stable R m → (∀ a, stable R (k a)) → stable R (bind m k).
Proof.
  intros Hm Hk w. unfold bind. specialize (Hm w).
  destruct (m w) as [[a|e] w1]; simpl in *; [|done].
  etrans; [exact Hm|apply Hk].
Qed.

Lemma stable_try_catch {A} (m : M A) h :
  stable R m → (∀ e, stable R (h e)) → stable R (try_catch m h).
Proof.
  intros Hm Hh w. unfold try_catch. specialize (Hm w).
  destruct (m w) as [[a|e] w1]; simpl in *; [done|].
  etrans; [exact Hm|apply Hh].
Qed.

Lemma stable_try_finally {A} (m : M A) f :
  stable R m → stable R f → stable R (try_finally m f).
Proof.
  intros Hm Hf w. unfold try_finally. specialize (Hm w).
  destruct (m w) as [r w1]. specialize (Hf w1). simpl in *.
  destruct (f w1) as [[[]|e] w2]; simpl in *; etrans; eauto.
Qed.

Lemma stable_modify f : (∀ w, R w (f w)) → stable R (modify f).
Proof. intros H w. apply H. Qed.

End Stable.

Lemma stable_weaken {A} (R R' : relation World) (m : M A) :
  (∀ w w', R w w' → R' w w') → stable R m → stable R' m.
Proof. intros H Hs w. apply H, Hs. Qed.

Global Instance keeps_preorder {B} (f : World → B) : PreOrder (keeps f).
Proof.
  split; [intros w; reflexivity|].
  intros a b c H1 H2. unfold keeps in *. congruence.
Qed.

Global Instance touches_preorder S : PreOrder (touches S).
Proof.
  split; [intros w id _; reflexivity|].
  intros a b c H1 H2 id Hid. rewrite H2, H1; done.
Qed.

Lemma ledgers_touches S w w' : keeps ledgers w w' → touches S w w'.
Proof. intros [= H _ _] id _. by rewrite H. Qed.

Create HintDb frames.

(** Decomposes a [stable] goal along the structure of the computation. *)
Ltac stable_step :=
  lazymatch goal with
  | |- stable _ (bind _ _) => apply stable_bind; [tc_solve| |intros ?]
  | |- stable _ (ret _) => apply stable_ret; tc_solve
  | |- stable _ (throw _) => apply stable_throw; tc_solve
  | |- stable _ (gets _) => apply stable_gets; tc_solve
  | |- stable _ Date_now => apply stable_gets; tc_solve
  | |- stable _ (try_catch _ _) => apply stable_try_catch; [tc_solve| |intros ?]
  | |- stable _ (if ?b then _ else _) => destruct b
  | |- stable _ (match ?x with _ => _ end) => destruct x
  end; cbv beta iota zeta.

Ltac stable_leaf :=
  lazymatch goal with
  | |- stable (keeps _) (modify _) => apply stable_modify; intros ?; reflexivity
  | |- stable (keeps _) (sleep _) => apply stable_modify; intros ?; reflexivity
  | |- stable (keeps _) (roundTrip _) => intros ?; reflexivity
  | |- stable (keeps _) startLockCleanup => apply stable_modify; intros ?; reflexivity
  | |- stable (keeps _) (generateLockToken _) => intros ?; reflexivity
  end.

Ltac stable_auto := repeat first [stable_leaf | solve [auto with frames] | stable_step].

(** ** The lock layer and the reads leave the ledgers alone *)

Lemma acquireAttempts_ledgers env lockKey lockToken lockExpiresAt timeout maxAttempts remaining :
  stable (keeps ledgers)
    (acquireAttempts env lockKey lockToken lockExpiresAt timeout maxAttempts remaining).
Proof.
  induction remaining as [|rest IH]; simpl.
  - stable_auto.
  - stable_auto; exact IH.
Qed.
#[global] Hint Resolve acquireAttempts_ledgers : frames.

Lemma acquireLock_ledgers env lockKey timeout maxAttempts :
  stable (keeps ledgers) (acquireLock env lockKey timeout maxAttempts).
Proof. unfold acquireLock. stable_auto. Qed.
#[global] Hint Resolve acquireLock_ledgers : frames.

Lemma releaseLock_ledgers env lockKey lockToken :
  stable (keeps ledgers) (releaseLock env lockKey lockToken).
Proof. unfold releaseLock. stable_auto. Qed.
#[global] Hint Resolve releaseLock_ledgers : frames.

Lemma isLocked_ledgers env lockKey : stable (keeps ledgers) (isLocked env lockKey).
Proof. unfold isLocked. stable_auto. Qed.
#[global] Hint Resolve isLocked_ledgers : frames.

Lemma getPaymentOrder_ledgers env orderId :
  stable (keeps ledgers) (getPaymentOrder env orderId).
Proof. unfold getPaymentOrder. stable_auto. Qed.
#[global] Hint Resolve getPaymentOrder_ledgers : frames.

Lemma getUPIDetails_ledgers env : stable (keeps ledgers) (getUPIDetails env).
Proof. unfold getUPIDetails. stable_auto. Qed.
#[global] Hint Resolve getUPIDetails_ledgers : frames.

Lemma checkExpiry_ledgers createdAt expiryMinutes :
  stable (keeps ledgers) (checkExpiry createdAt expiryMinutes).
Proof. unfold checkExpiry. stable_auto. Qed.
#[global] Hint Resolve checkExpiry_ledgers : frames.

(** ** The lock manager *)

Lemma acquireLock_first_try env lockKey timeout n w :
  cache_live (clock w) (lockCache w !! lockKey) = false →
  outcome env (calls w) = Ok →
  lock_free w lockKey = true →
  acquireLock env lockKey timeout (S n) w =
    (Val (Some (random env (draws w))), acquired env lockKey timeout w).
Proof.
  intros Hcache Ho Hfree.
  unfold acquireLock, bind, generateLockToken, Date_now, gets. simpl.
  rewrite Hcache. simpl. unfold bind, roundTrip. simpl. rewrite Ho.
  unfold Date_now, gets, modify, startLockCleanup, ret, modify. simpl.
  unfold lock_free in Hfree. unfold acquired, install.
  destruct (locks w !! lockKey) as [cl|] eqn:Hl; simpl.
  - rewrite Hfree. simpl. rewrite decide_True by done. reflexivity.
  - rewrite decide_True by done. reflexivity.
Qed.

Lemma releaseLock_result env lockKey lockToken w :
  (releaseLock env lockKey lockToken w).1 =
    match outcome env (calls w) with
    | Ok => Val true
    | Abort => Val false
    | Fault => Throw store_unavailable
    end.
Proof.
  unfold releaseLock, bind, gets, roundTrip. simpl.
  destruct (lockCache w !! lockKey) as [c|]; [case_decide|]; simpl;
    destruct (outcome env (calls w)); reflexivity.
Qed.

Lemma releaseLock_locks env lockKey lockToken w :
  locks (releaseLock env lockKey lockToken w).2 =
    match outcome env (calls w) with
    | Ok =>
      match clear lockToken (locks w !! lockKey) with
      | Some l => <[lockKey := l]> (locks w)
      | None => delete lockKey (locks w)
      end
    | _ => locks w
    end.
Proof.
  unfold releaseLock, bind, gets, roundTrip. simpl.
  destruct (lockCache w !! lockKey) as [c|]; [case_decide|]; simpl;
    destruct (outcome env (calls w)); reflexivity.
Qed.

Lemma releaseLock_lookup env lockKey lockToken w :
  locks (releaseLock env lockKey lockToken w).2 !! lockKey =
    match outcome env (calls w) with
    | Ok => clear lockToken (locks w !! lockKey)
    | _ => locks w !! lockKey
    end.
Proof.
  rewrite releaseLock_locks. destruct (outcome env (calls w)); try reflexivity.
  destruct (clear lockToken (locks w !! lockKey)) eqn:E.
  - by rewrite lookup_insert_eq.
  - by rewrite lookup_delete_eq.
Qed.

(** C8. [releaseLock] is a compare-and-clear. A stored lock record is, after
    the call, either gone or exactly as it was; it is gone precisely when the
    releasing transaction commits and the caller either supplied no token
    or supplied the token the record holds. So a caller that supplies a token
    clears the record only if the tokens are equal, a caller that supplies
    none clears it whatever it holds, and a record of another token is never
    cleared by a caller that supplies one. *)
Theorem releaseLock_compare_and_clear env lockKey lockToken w l :
  locks w !! lockKey = Some l →
  let w' := (releaseLock env lockKey lockToken w).2 in
  (locks w' !! lockKey = None ∨ locks w' !! lockKey = Some l) ∧
  (locks w' !! lockKey = None ↔
     outcome env (calls w) = Ok ∧ (lockToken = None ∨ lockToken = Some (token l))).
Proof.
  intros Hl w'. subst w'. rewrite releaseLock_lookup, Hl.
  destruct (outcome env (calls w)) eqn:Ho; simpl.
  - destruct lockToken as [t|]; [case_decide as Hd|].
    + split; [by right|]. split; [done|]. intros [_ [[=]|[=]]]. congruence.
    + split; [by left|]. split; [|done]. intros _. split; [done|]. right. f_equal.
      destruct (decide (token l = t)); congruence.
    + split; [by left|]. split; [|done]. intros _. split; [done|]. by left.
  - split; [by right|]. split; [done|]. intros [[=] _].
  - split; [by right|]. split; [done|]. intros [[=] _].
Qed.

(** C8 on a lock held by token 7 and released with token 8: the record stays. *)
Lemma releaseLock_compare_and_clear_witness :
  let w := set_locks <["order:o1" := lock_taken 7%N 0 30000]> (world_at 0) in
  let w' := (releaseLock env_ok "order:o1" (Some 8%N) w).2 in
  locks w !! "order:o1" = Some (lock_taken 7%N 0 30000) ∧
  (locks w' !! "order:o1" = None ∨ locks w' !! "order:o1" = Some (lock_taken 7%N 0 30000)) ∧
  (locks w' !! "order:o1" = None ↔
     outcome env_ok (calls w) = Ok ∧
     (Some 8%N = None ∨ Some 8%N = Some (token (lock_taken 7%N 0 30000)))).
Proof.
  intros w w'. split; [reflexivity|].
  apply (releaseLock_compare_and_clear env_ok "order:o1" (Some 8%N) w (lock_taken 7%N 0 30000)).
  reflexivity.
Defined.

(** C9. When the stored lock belongs to another token and the releasing
    transaction commits, [releaseLock] answers [true] and the record is
    still in place: [true] does not mean that the lock was removed. *)
Theorem releaseLock_true_without_clearing env lockKey t w l :
  locks w !! lockKey = Some l →
  token l ≠ t →
  outcome env (calls w) = Ok →
  (releaseLock env lockKey (Some t) w).1 = Val true ∧
  locks (releaseLock env lockKey (Some t) w).2 !! lockKey = Some l.
Proof.
  intros Hl Hne Ho. rewrite releaseLock_result, releaseLock_lookup, Ho, Hl. simpl.
  split; [done|]. by case_decide.
Qed.

(** C9 on a lock held by token 7 and released with token 8. *)
Lemma releaseLock_true_without_clearing_witness :
  let w := set_locks <["order:o1" := lock_taken 7%N 0 30000]> (world_at 0) in
  (locks w !! "order:o1" = Some (lock_taken 7%N 0 30000) ∧
   token (lock_taken 7%N 0 30000) ≠ 8%N ∧
   outcome env_ok (calls w) = Ok) ∧
  (releaseLock env_ok "order:o1" (Some 8%N) w).1 = Val true ∧
  locks (releaseLock env_ok "order:o1" (Some 8%N) w).2 !! "order:o1"
    = Some (lock_taken 7%N 0 30000).
Proof.
  intros w.
  assert (H1 : locks w !! "order:o1" = Some (lock_taken 7%N 0 30000)) by reflexivity.
  assert (H2 : token (lock_taken 7%N 0 30000) ≠ 8%N) by (simpl; lia).
  assert (H3 : outcome env_ok (calls w) = Ok) by reflexivity.
  split; [auto|].
  exact (releaseLock_true_without_clearing env_ok "order:o1" 8%N w _ H1 H2 H3).
Defined.

(** ** The two locks of an order *)

Lemma verifyLockKey_orderLockKey orderId orderId' :
  verifyLockKey orderId ≠ orderLockKey orderId'.
Proof. unfold verifyLockKey, orderLockKey. simpl. discriminate. Qed.

Lemma acquired_locks_other env lockKey timeout w other :
  lockKey ≠ other →
  locks (acquired env lockKey timeout w) !! other = locks w !! other.
Proof. intros Hne. unfold acquired. simpl. by rewrite lookup_insert_ne. Qed.






(** ** Running the calls of a handler one by one *)

Ltac wsimpl :=
  cbn [payments wallets locks idempotency upiDetails lockCache cleanupInterval
       clock calls draws journal set_payments set_wallets set_locks
       set_idempotency set_lockCache set_cleanupInterval set_clock set_calls
       set_draws log_event acquired fst snd] in *.

Lemma bind_run {A B} (m : M A) (k : A → M B) w a w' :
  m w = (Val a, w') → bind m k w = k a w'.
Proof. unfold bind. by intros ->. Qed.

Lemma bind_throw {A B} (m : M A) (k : A → M B) w e w' :
  m w = (Throw e, w') → bind m k w = (Throw e, w').
Proof. unfold bind. by intros ->. Qed.

Lemma getPaymentOrder_run env orderId w :
  outcome env (calls w) ≠ Fault →
  getPaymentOrder env orderId w = (Val (payments w !! orderId), set_calls S w).
Proof.
  intros Ho. unfold getPaymentOrder, bind, roundTrip. simpl.
  destruct (outcome env (calls w)); done.
Qed.

Lemma checkExpiry_run createdAt expiryMinutes w :
  checkExpiry createdAt expiryMinutes w =
    (Val (checkExpiry_at (clock w) createdAt expiryMinutes), w).
Proof. reflexivity. Qed.

Lemma getUPIDetails_run env w upi :
  outcome env (calls w) ≠ Fault →
  upiDetails w = Some upi →
  getUPIDetails env w = (Val upi, set_calls S w).
Proof.
  intros Ho Hu. unfold getUPIDetails, bind, roundTrip, gets. simpl.
  destruct (outcome env (calls w)); try done; simpl; by rewrite Hu.
Qed.

Lemma isLocked_absent_run env lockKey w :
  cache_live (clock w) (lockCache w !! lockKey) = false →
  outcome env (calls w) ≠ Fault →
  locks w !! lockKey = None →
  isLocked env lockKey w = (Val false, set_calls S w).
Proof.
  intros Hc Ho Hl. unfold isLocked, bind, gets, Date_now, gets. simpl.
  rewrite Hc. unfold try_catch, bind, roundTrip. simpl.
  destruct (outcome env (calls w)); try done; unfold gets; simpl; by rewrite Hl.
Qed.



Lemma try_catch_run {A} (m : M A) h w a w' :
  m w = (Val a, w') → try_catch m h w = (Val a, w').
Proof. unfold try_catch. by intros ->. Qed.

Lemma apply_update_status orderId status now updateData cur :
  o_status (apply_update orderId status now updateData cur) = status.
Proof. by destruct cur. Qed.

Lemma updatePaymentOrder_run env orderId status updateData w :
  outcome env (calls w) ≠ Fault →
  updatePaymentOrder env orderId status updateData w =
    (Val tt,
     log_event (OrderWrite orderId (o_status <$> payments w !! orderId) status)
       (set_payments
          <[orderId := apply_update orderId status (clock w) updateData
                         (payments w !! orderId)]>
          (set_calls S w))).
Proof.
  intros Ho. unfold updatePaymentOrder, bind, roundTrip. simpl.
  destruct (outcome env (calls w)); done.
Qed.

(** ** Expiry at the boundary instant *)

Lemma checkExpiry_at_boundary createdAt expiryMinutes :
  checkExpiry_at (calculateExpiryTime createdAt expiryMinutes) createdAt expiryMinutes
    = false.
Proof. unfold checkExpiry_at. rewrite Z.gtb_ltb. apply Z.ltb_irrefl. Qed.

Lemma remaining_isExpired_at_boundary createdAt expiryMinutes :
  remaining_isExpired_at (calculateExpiryTime createdAt expiryMinutes)
    createdAt expiryMinutes = true.
Proof.
  unfold remaining_isExpired_at, remainingMs_at. rewrite Z.sub_diag. reflexivity.
Qed.

Lemma checkExpiry_at_spec currentTime createdAt expiryMinutes :
  checkExpiry_at currentTime createdAt expiryMinutes = true ↔
  calculateExpiryTime createdAt expiryMinutes < currentTime.
Proof. unfold checkExpiry_at. rewrite Z.gtb_ltb. apply Z.ltb_lt. Qed.

(** C7, the code at the boundary instant. [order1] is created at 0 and
    expires at 300000. At [now = 300000] [checkExpiry] answers false, so
    [/verify] does not reject the request as expired: it marks the order
    SUCCESS and credits the wallet. At the same instant [GET /order] finds
    the order expired and writes EXPIRED, while [/recheck] and the batch
    sweep, which compare with a strict [>], leave it PENDING. *)
Theorem boundary_instant_verifies_and_expires :
  let w := world_at 300000 in
  expiresAt_or_default (ORDER_EXPIRY_MINUTES config_development) order1 = clock w ∧
  (checkExpiry (o_createdAt order1) (ORDER_EXPIRY_MINUTES config_development) w).1
    = Val false ∧
  (verify env_ok config_development body1 w).1
    = Val (mkResponse 200 true None (Some SUCCESS) (Some 100)) ∧
  status_of (verify env_ok config_development body1 w).2 "o1" = Some SUCCESS ∧
  status_of (getOrder env_ok config_development "o1" w).2 "o1" = Some EXPIRED ∧
  status_of (recheck env_ok config_development "o1" "alice" w).2 "o1" = Some PENDING ∧
  status_of (expire env_ok config_development true 100 w).2 "o1" = Some PENDING.
Proof. vm_compute. repeat split. Qed.

(** ** The idempotency cache *)


(** The durable path of [withIdempotency] does honour the TTL: on a cache
    miss, a stored record that has expired is not returned; the operation
    runs. *)
Lemma withIdempotency_durable_expired env idempotencyKey operation w data result w1 :
  lockCache w !! memoryKey idempotencyKey = None →
  outcome env (calls w) ≠ Fault →
  idempotency w !! idempotencyKey = Some data →
  i_expiresAt data ≤ clock w →
  operation (set_calls S w) = (Val result, w1) →
  outcome env (calls w1) ≠ Fault →
  (withIdempotency env idempotencyKey operation w).1 = Val result.
Proof.
  intros Hc Ho Hd He Hop Ho1.
  unfold withIdempotency, bind, gets, roundTrip, Date_now, gets. simpl.
  rewrite Hc. destruct (outcome env (calls w)) eqn:E; [| |done]; simpl.
  all: rewrite Hd; replace (i_expiresAt data >? clock w) with false
         by (symmetry; rewrite Z.gtb_ltb; apply Z.ltb_ge; lia).
  all: rewrite Hop; simpl; destruct (outcome env (calls w1)); done.
Qed.

(** The durable path returns a stored record that has not expired, without
    running the operation. *)
Lemma withIdempotency_durable_hit env idempotencyKey operation w data :
  lockCache w !! memoryKey idempotencyKey = None →
  outcome env (calls w) ≠ Fault →
  idempotency w !! idempotencyKey = Some data →
  clock w < i_expiresAt data →
  withIdempotency env idempotencyKey operation w =
    (Val (i_result data),
     set_lockCache
       <[memoryKey idempotencyKey := CIdem (i_result data) (i_expiresAt data)]>
       (set_calls S w)).
Proof.
  intros Hc Ho Hd He.
  unfold withIdempotency, bind, gets, roundTrip, Date_now, gets. simpl.
  rewrite Hc. destruct (outcome env (calls w)) eqn:E; [| |done]; simpl.
  all: rewrite Hd; replace (i_expiresAt data >? clock w) with true
         by (symmetry; rewrite Z.gtb_ltb; apply Z.ltb_lt; lia).
  all: reflexivity.
Qed.

(** C5, the code on a retry after the TTL. The first call at time 0 runs the
    operation and stores its result with [expiresAt = 300000]. A second call
    on the same instance at time 600000, long after the record has expired,
    finds the entry in the in-process cache and returns the stored result
    without a store round trip and without running the operation: the
    wallet still holds 100. The same call on an instance with an empty
    cache reads the durable record, sees that it has expired, and runs the
    operation again. *)
Theorem withIdempotency_returns_expired_cache_entry :
  let first := withIdempotency env_ok "key-1" (credit_operation env_ok) (world_at 0) in
  let later := set_clock (fun _ => 600000) first.2 in
  let second := withIdempotency env_ok "key-1" (credit_operation env_ok) later in
  let elsewhere :=
    withIdempotency env_ok "key-1" (credit_operation env_ok)
      (set_lockCache (fun _ => ∅) later) in
  first.1 = Val (JNum 100) ∧
  i_expiresAt <$> idempotency first.2 !! "key-1" = Some 300000 ∧
  c_expiresAt <$> lockCache later !! memoryKey "key-1" = Some 300000 ∧
  second.1 = Val (JNum 100) ∧
  calls second.2 = calls later ∧
  balanceOf <$> wallets second.2 !! "alice" = Some 100 ∧
  elsewhere.1 = Val (JNum 200) ∧
  balanceOf <$> wallets elsewhere.2 !! "alice" = Some 200.
Proof. vm_compute. repeat split. Qed.

(** ** Expiry when the order lock is refused *)

(** In [GET /order] the expiry write does not depend on what [acquireLock]
    answers: a refusal ([None]) writes EXPIRED like a success. *)
Lemma getOrder_writes_whatever_the_lock env config orderId w o w2 answer w3 :
  orderId ≠ "" →
  outcome env (calls w) ≠ Fault →
  payments w !! orderId = Some o →
  o_status o = PENDING →
  isLocked env (orderLockKey orderId) (set_calls S w) = (Val false, w2) →
  expiresAt_or_default (ORDER_EXPIRY_MINUTES config) o ≤ clock w2 →
  acquireLock env (orderLockKey orderId) (ORDER_LOCK_TIMEOUT config)
    MAX_LOCK_ATTEMPTS w2 = (Val answer, w3) →
  outcome env (calls w3) ≠ Fault →
  (getOrder env config orderId w).1 = Val (mkResponse 200 true None (Some EXPIRED) None) ∧
  status_of (getOrder env config orderId w).2 orderId = Some EXPIRED.
Proof.
  intros Hid Ho Hp Hs Hlocked Hexp Hacq Ho3.
  unfold getOrder, missing. rewrite bool_decide_eq_false_2 by done.
  erewrite bind_run by (by apply getPaymentOrder_run).
  rewrite Hp. cbv iota.
  erewrite bind_run by exact Hlocked.
  cbv iota. unfold Date_now. erewrite bind_run by reflexivity. cbv zeta.
  replace (Z.max 0 (expiresAt_or_default (ORDER_EXPIRY_MINUTES config) o - clock w2) =? 0)
    with true by (symmetry; apply Z.eqb_eq; lia).
  rewrite Hs, bool_decide_eq_true_2 by done. cbn [andb].
  erewrite bind_run; last first.
  { apply try_catch_run. erewrite bind_run by exact Hacq.
    erewrite bind_run by (by apply updatePaymentOrder_run). reflexivity. }
  unfold status_of. simpl. rewrite lookup_insert_eq. simpl.
  by rewrite apply_update_status.
Qed.

(** In the batch sweep a refusal skips the order and leaves it as it was. *)
Lemma expire_one_refused env config currentTime n orderId order w w1 :
  acquireLock env (orderLockKey orderId) (ORDER_LOCK_TIMEOUT config)
    MAX_LOCK_ATTEMPTS w = (Val None, w1) →
  (expire_one env config currentTime n (orderId, order) w).1 = Val n ∧
  payments (expire_one env config currentTime n (orderId, order) w).2 = payments w.
Proof.
  intros Hacq. unfold expire_one. cbv zeta.
  destruct (currentTime - o_createdAt order >? ORDER_EXPIRY_MINUTES config * 60 * 1000);
    [|done].
  erewrite try_catch_run by (erewrite bind_run by exact Hacq; reflexivity).
  simpl. split; [done|].
  pose proof (acquireLock_ledgers env (orderLockKey orderId)
                (ORDER_LOCK_TIMEOUT config) MAX_LOCK_ATTEMPTS w) as Hl.
  rewrite Hacq in Hl. by injection Hl as -> _ _.
Qed.

(** C6, the code on a refused lock. [order1] is PENDING and long expired.
    In [GET /order] the three attempts of [acquireLock] are refused and it
    answers [false]; the handler does not look at the answer and writes
    EXPIRED all the same. The batch sweep and [/recheck], refused in the same
    way, skip the write and leave the order PENDING. *)
Theorem getOrder_expires_without_the_lock :
  let w := world_at 400000 in
  let cfg := config_development in
  let read := isLocked (env_refusing 2) (orderLockKey "o1")
                (getPaymentOrder (env_refusing 2) "o1" w).2 in
  let lazy := getOrder (env_refusing 2) cfg "o1" w in
  let batch := expire (env_refusing 1) cfg true 100 w in
  let rechecked := recheck (env_refusing 1) cfg "o1" "alice" w in
  read.1 = Val false ∧
  (acquireLock (env_refusing 2) (orderLockKey "o1") (ORDER_LOCK_TIMEOUT cfg)
     MAX_LOCK_ATTEMPTS read.2).1 = Val None ∧
  lazy.1 = Val (mkResponse 200 true None (Some EXPIRED) None) ∧
  status_of lazy.2 "o1" = Some EXPIRED ∧
  journal lazy.2 = [OrderWrite "o1" (Some PENDING) EXPIRED] ∧
  locks lazy.2 !! orderLockKey "o1" = None ∧
  batch.1 = Val (mkResponse 200 true None None None) ∧
  status_of batch.2 "o1" = Some PENDING ∧
  status_of rechecked.2 "o1" = Some PENDING.
Proof. vm_compute. repeat split. Qed.

(** ** The checks of [/verify] *)

Lemma well_formed_validation body amountNum :
  well_formed body amountNum →
  missing (v_orderId body) || missing (v_transactionId body)
    || missing (v_upiId body) || amount_missing (v_amount body)
    || missing (v_userId body) = false.
Proof.
  intros (H1 & H2 & H3 & H4 & H5). unfold missing.
  rewrite !bool_decide_eq_false_2 by done. simpl.
  destruct (v_amount body) as [| |z]; simpl in *; try done.
  destruct (Z.leb_spec z 0); [done|]. rewrite orb_false_r. apply Z.eqb_neq. lia.
Qed.

(** With its lock taken at the first attempt, [/verify] is its checks run
    under the outer [catch]. *)
Lemma verify_locked env config body amountNum w :
  well_formed body amountNum →
  verify_lock_available w body →
  outcome env (calls w) = Ok →
  verify env config body w =
    try_catch
      (verify_checks env config body amountNum (verifyLockKey (v_orderId body)))
      (release_and_rethrow env (verifyLockKey (v_orderId body)))
      (acquired env (verifyLockKey (v_orderId body))
         (PAYMENT_VERIFICATION_TIMEOUT config) w).
Proof.
  intros Hwf [Hc Hf] Ho. unfold verify.
  rewrite (well_formed_validation _ _ Hwf).
  destruct Hwf as (_ & _ & _ & _ & ->).
  cbv zeta. erewrite bind_run by (by apply acquireLock_first_try).
  reflexivity.
Qed.

(** Steps 1 to 3 pass for an order that is PENDING and has not expired. *)
Lemma verify_checks_pending env config body amountNum lockKey w o :
  outcome env (calls w) ≠ Fault →
  payments w !! v_orderId body = Some o →
  o_status o = PENDING →
  checkExpiry_at (clock w) (o_createdAt o) (ORDER_EXPIRY_MINUTES config) = false →
  verify_checks env config body amountNum lockKey w =
    verify_matching env body amountNum lockKey o (set_calls S w).
Proof.
  intros Ho Hp Hs He. unfold verify_checks. cbv zeta.
  erewrite bind_run by (by apply getPaymentOrder_run).
  rewrite Hp, Hs. cbv iota. rewrite bool_decide_eq_true_2 by done. cbn [negb].
  erewrite bind_run by apply checkExpiry_run.
  wsimpl. by rewrite He.
Qed.

(** At the instant [now = createdAt + ORDER_EXPIRY] step 3 lets the request
    through. *)
Lemma verify_checks_at_boundary env config body amountNum lockKey w o :
  outcome env (calls w) ≠ Fault →
  payments w !! v_orderId body = Some o →
  o_status o = PENDING →
  clock w = calculateExpiryTime (o_createdAt o) (ORDER_EXPIRY_MINUTES config) →
  verify_checks env config body amountNum lockKey w =
    verify_matching env body amountNum lockKey o (set_calls S w).
Proof.
  intros Ho Hp Hs Hnow. apply verify_checks_pending; try done.
  rewrite Hnow. apply checkExpiry_at_boundary.
Qed.





(** Steps 4 to 8 pass when the order lock is free, the amounts agree and
    the destination is the configured one. *)
Lemma verify_matching_passes env body amountNum lockKey w o :
  o_status o = PENDING →
  order_lock_absent w (v_orderId body) →
  amount_mismatch amountNum (o_amount o) = false →
  upiDetails w = Some (v_upiId body) →
  outcome env (calls w) ≠ Fault →
  outcome env (S (calls w)) ≠ Fault →
  verify_matching env body amountNum lockKey o w =
    verify_settle env body amountNum lockKey (set_calls S (set_calls S w)).
Proof.
  intros Hs [Hc Hl] Ha Hu Ho1 Ho2. unfold verify_matching. cbv zeta.
  rewrite Hs. rewrite bool_decide_eq_false_2 by done.
  erewrite bind_run by (by apply isLocked_absent_run).
  cbv iota. rewrite Ha.
  erewrite bind_run; last first.
  { apply try_catch_run. erewrite bind_run by (by apply getUPIDetails_run).
    reflexivity. }
  cbv iota. rewrite bool_decide_eq_true_2 by done. reflexivity.
Qed.

(** ** Steps 9 to 11 of [/verify] *)

(** Crosses a call of the lock layer by its frame. *)
Ltac wp_lock :=
  lazymatch goal with
  | |- post (releaseLock _ _ _) _ _ =>
    eapply post_stable; [apply releaseLock_ledgers|]
  | |- post (acquireLock _ _ _ _) _ _ =>
    eapply post_stable; [apply acquireLock_ledgers|]
  | |- post (isLocked _ _) _ _ =>
    eapply post_stable; [apply isLocked_ledgers|]
  end;
  let r := fresh "r" in
  let w := fresh "w" in
  let H := fresh "Hl" in
  intros r w H; unfold keeps, ledgers in H; injection H as ? ? ?; destruct r;
  cbv beta iota zeta.

(** Replaces the ledgers of the intermediate worlds by what they hold. *)
Ltac subst_ledgers :=
  repeat match goal with
  | H : payments ?w = _ |- _ => is_var w; try rewrite H in *; clear H
  | H : wallets ?w = _ |- _ => is_var w; try rewrite H in *; clear H
  | H : journal ?w = _ |- _ => is_var w; try rewrite H in *; clear H
  end.

Lemma verify_settle_settled env body amountNum lockKey w o :
  payments w !! v_orderId body = Some o →
  o_status o = PENDING →
  outcome env (calls w) ≠ Fault →
  post (try_catch (verify_settle env body amountNum lockKey)
          (release_and_rethrow env lockKey)) w
    (settled env body amountNum (journal w) (calls w)).
Proof.
  intros Hp Hs Ho.
  unfold verify_settle, release_and_rethrow, updatePaymentOrder, updateWalletBalance.
  cbv zeta.
  repeat first [wp_lock | wp_step]; wsimpl.
  all: try congruence.
  all: rewrite ?Hp in *; cbn [fmap option_fmap option_map] in *; rewrite ?Hs in *.
  all: unfold settled, credit_succeeds, rollback_call, status_of; wsimpl.
  all: subst_ledgers; rewrite ?lookup_insert_eq.
  all: split; [|split; [|split]].
  all: try (eexists; rewrite <- ?app_assoc; simpl; reflexivity).
  all: try (intros [? ?]; congruence).
  all: try (intros ? [= <-] ?; simpl in *; first [discriminate | split; congruence]).
  all: try (intros _; split; [reflexivity | rewrite <- ?app_assoc; reflexivity]).
  all: try (intros Hn; exfalso; apply Hn; split; congruence).
  all: try (intros _ Hr; exfalso; apply Hr; case_decide; congruence).
  all: try (intros _ _; eexists; split; [reflexivity|]; simpl; split; [done|];
            apply lookup_union_Some_l; apply lookup_insert_eq).
Qed.

(** A request whose checks all pass reaches steps 9 to 11 after four round
    trips: the lock, the order, the order lock, the destination. *)
Lemma verify_reaches_settle env config body amountNum w o :
  well_formed body amountNum →
  verify_lock_available w body →
  payments w !! v_orderId body = Some o →
  o_status o = PENDING →
  checkExpiry_at (clock w) (o_createdAt o) (ORDER_EXPIRY_MINUTES config) = false →
  order_lock_absent w (v_orderId body) →
  amount_mismatch amountNum (o_amount o) = false →
  upiDetails w = Some (v_upiId body) →
  (∀ i, (i < 4)%nat → outcome env (i + calls w) = Ok) →
  ∃ w4,
    verify env config body w =
      try_catch (verify_settle env body amountNum (verifyLockKey (v_orderId body)))
        (release_and_rethrow env (verifyLockKey (v_orderId body))) w4 ∧
    ledgers w4 = ledgers w ∧ calls w4 = (4 + calls w)%nat.
Proof.
  intros Hwf Hav Hp Hs He [Hoc Hol] Ha Hu Hok.
  pose proof (Hok 0%nat ltac:(lia)) as Ho0.
  pose proof (Hok 1%nat ltac:(lia)) as Ho1.
  pose proof (Hok 2%nat ltac:(lia)) as Ho2.
  pose proof (Hok 3%nat ltac:(lia)) as Ho3.
  simpl in Ho0, Ho1, Ho2, Ho3.
  set (vk := verifyLockKey (v_orderId body)).
  set (w1 := acquired env vk (PAYMENT_VERIFICATION_TIMEOUT config) w).
  assert (Hne : vk ≠ orderLockKey (v_orderId body))
    by apply verifyLockKey_orderLockKey.
  exists (set_calls S (set_calls S (set_calls S w1))).
  split; [|split; reflexivity].
  rewrite (verify_locked env config body amountNum w Hwf Hav Ho0).
  fold vk w1. unfold try_catch.
  rewrite (verify_checks_pending env config body amountNum vk w1 o);
    [|subst w1; wsimpl; congruence|done|done|done].
  rewrite (verify_matching_passes env body amountNum vk (set_calls S w1) o);
    [done|done| |done|done|subst w1; wsimpl; congruence|subst w1; wsimpl; congruence].
  unfold order_lock_absent. subst w1. wsimpl. by rewrite !lookup_insert_ne.
Qed.

(** C1, as the code has it. Take a [/verify] request on a PENDING, unexpired
    order whose checks all pass, the four reads of the checks answered by
    the store, the write of SUCCESS not refused. Then the SUCCESS write is
    the first ledger write of the call: the wallet credit comes after it.
    If the credit succeeds, the order is SUCCESS and the log of the call is
    the status write, the balance commit, the history write, in that order.
    If the credit throws and the compensating write is not refused, the
    order is PENDING again and carries the annotation
    [verificationError = WALLET_CREDIT_FAILED]. A success response is sent
    only if the credit succeeded. *)
Theorem verify_marks_success_then_credits env config body amountNum w o :
  well_formed body amountNum →
  verify_lock_available w body →
  payments w !! v_orderId body = Some o →
  o_status o = PENDING →
  checkExpiry_at (clock w) (o_createdAt o) (ORDER_EXPIRY_MINUTES config) = false →
  order_lock_absent w (v_orderId body) →
  amount_mismatch amountNum (o_amount o) = false →
  upiDetails w = Some (v_upiId body) →
  (∀ i, (i < 4)%nat → outcome env (i + calls w) = Ok) →
  outcome env (4 + calls w) ≠ Fault →
  let orderId := v_orderId body in
  let c := (4 + calls w)%nat in
  let r := verify env config body w in
  (∃ rest, journal r.2 = journal w ++ OrderWrite orderId (Some PENDING) SUCCESS :: rest) ∧
  (credit_succeeds env (S c) →
   status_of r.2 orderId = Some SUCCESS ∧
   journal r.2 = journal w ++
     [OrderWrite orderId (Some PENDING) SUCCESS;
      BalanceCommit (v_userId body) amountNum;
      HistoryWrite (v_userId body) orderId]) ∧
  (¬ credit_succeeds env (S c) →
   outcome env (rollback_call env (S c)) ≠ Fault →
   ∃ o', payments r.2 !! orderId = Some o' ∧ o_status o' = PENDING ∧
         o_notes o' !! "verificationError" = Some (JStr "WALLET_CREDIT_FAILED")) ∧
  (∀ response, r.1 = Val response → success response = true →
     credit_succeeds env (S c)).
Proof.
  intros Hwf Hav Hp Hs He Hab Ha Hu Hok Hc orderId c r. subst r.
  destruct (verify_reaches_settle env config body amountNum w o)
    as (w4 & -> & Hl & Hcalls); try done.
  injection Hl as Hpay _ Hj.
  pose proof (verify_settle_settled env body amountNum
                (verifyLockKey (v_orderId body)) w4 o) as Hpost.
  unfold post in Hpost. rewrite Hj, Hcalls in Hpost.
  apply Hpost; [by rewrite Hpay|done|done].
Qed.

(** C1 on [order1] at time 1000, the wallet transaction reported uncommitted:
    the credit fails and the compensating write lands. *)
Lemma verify_marks_success_then_credits_witness :
  let env := env_with [(5%nat, Abort)] in
  let w := world_at 1000 in
  let r := verify env config_development body1 w in
  (well_formed body1 100 ∧
   verify_lock_available w body1 ∧
   payments w !! v_orderId body1 = Some order1 ∧
   o_status order1 = PENDING ∧
   checkExpiry_at (clock w) (o_createdAt order1)
     (ORDER_EXPIRY_MINUTES config_development) = false ∧
   order_lock_absent w (v_orderId body1) ∧
   amount_mismatch 100 (o_amount order1) = false ∧
   upiDetails w = Some (v_upiId body1) ∧
   (∀ i, (i < 4)%nat → outcome env (i + calls w) = Ok) ∧
   outcome env (4 + calls w) ≠ Fault) ∧
  (∃ rest, journal r.2 = journal w ++ OrderWrite "o1" (Some PENDING) SUCCESS :: rest) ∧
  (credit_succeeds env 5 →
   status_of r.2 "o1" = Some SUCCESS ∧
   journal r.2 = journal w ++
     [OrderWrite "o1" (Some PENDING) SUCCESS;
      BalanceCommit "alice" 100;
      HistoryWrite "alice" "o1"]) ∧
  (¬ credit_succeeds env 5 →
   outcome env (rollback_call env 5) ≠ Fault →
   ∃ o', payments r.2 !! "o1" = Some o' ∧ o_status o' = PENDING ∧
         o_notes o' !! "verificationError" = Some (JStr "WALLET_CREDIT_FAILED")) ∧
  (∀ response, r.1 = Val response → success response = true →
     credit_succeeds env 5).
Proof.
  intros env w r.
  assert (H1 : well_formed body1 100) by (repeat split; discriminate).
  assert (H2 : verify_lock_available w body1) by (split; reflexivity).
  assert (H3 : payments w !! v_orderId body1 = Some order1) by reflexivity.
  assert (H4 : o_status order1 = PENDING) by reflexivity.
  assert (H5 : checkExpiry_at (clock w) (o_createdAt order1)
                 (ORDER_EXPIRY_MINUTES config_development) = false) by reflexivity.
  assert (H6 : order_lock_absent w (v_orderId body1)) by (split; reflexivity).
  assert (H7 : amount_mismatch 100 (o_amount order1) = false) by reflexivity.
  assert (H8 : upiDetails w = Some (v_upiId body1)) by reflexivity.
  assert (H9 : ∀ i, (i < 4)%nat → outcome env (i + calls w) = Ok).
  { intros i Hi. do 4 (destruct i as [|i]; [reflexivity|]). lia. }
  assert (H10 : outcome env (4 + calls w) ≠ Fault) by (vm_compute; discriminate).
  split; [auto 20|].
  exact (verify_marks_success_then_credits env config_development body1 100 w order1
           H1 H2 H3 H4 H5 H6 H7 H8 H9 H10).
Defined.

(** C1, refuted as stated. In a run without any refusal the log of
    [/verify] shows the SUCCESS write before the balance commit: the status
    write comes first, not the credit. When the wallet transaction does not
    commit, the compensating write finds SUCCESS in the store, an order
    marked SUCCESS with no credit behind it; and when the compensating write
    is refused as well, the call ends with the order SUCCESS and no wallet. *)
Lemma verify_writes_success_before_credit :
  let cfg := config_development in
  let plain := verify env_ok cfg body1 (world_at 1000) in
  let aborted := verify (env_with [(5%nat, Abort)]) cfg body1 (world_at 1000) in
  let refused := verify (env_with [(5%nat, Fault); (6%nat, Fault)]) cfg body1 (world_at 1000) in
  journal plain.2 =
    [OrderWrite "o1" (Some PENDING) SUCCESS; BalanceCommit "alice" 100;
     HistoryWrite "alice" "o1"] ∧
  journal aborted.2 =
    [OrderWrite "o1" (Some PENDING) SUCCESS; OrderWrite "o1" (Some SUCCESS) PENDING] ∧
  status_of refused.2 "o1" = Some SUCCESS ∧
  wallets refused.2 !! "alice" = None ∧
  journal refused.2 = [OrderWrite "o1" (Some PENDING) SUCCESS].
Proof. vm_compute. repeat split. Qed.


(** ** Which orders a handler writes *)

Lemma stable_ledgers_payments {A} (m : M A) :
  stable (keeps ledgers) m → stable (keeps payments) m.
Proof. apply stable_weaken. intros w w' [= H _ _]. exact H. Qed.

Lemma stable_payments_touches {A} S (m : M A) :
  stable (keeps payments) m → stable (touches S) m.
Proof. apply stable_weaken. intros w w' H id _. unfold keeps in H. by rewrite H. Qed.

Lemma stable_ledgers_touches {A} S (m : M A) :
  stable (keeps ledgers) m → stable (touches S) m.
Proof. intros H. by apply stable_payments_touches, stable_ledgers_payments. Qed.

Lemma touches_weaken (S S' : string → Prop) w w' :
  (∀ id, S id → S' id) → touches S w w' → touches S' w w'.
Proof. intros HS H id Hid. apply H. auto. Qed.

Lemma updatePaymentOrder_touches env orderId status updateData :
  stable (touches (eq orderId)) (updatePaymentOrder env orderId status updateData).
Proof.
  intros w id Hid. unfold updatePaymentOrder, bind, roundTrip. simpl.
  destruct (outcome env (calls w)); simpl; try done; by rewrite lookup_insert_ne.
Qed.

Lemma updateWalletBalance_payments env userId amount orderId transactionType :
  stable (keeps payments) (updateWalletBalance env userId amount orderId transactionType).
Proof.
  intros w. unfold updateWalletBalance, bind, roundTrip. simpl.
  destruct (outcome env (calls w)); simpl; try done.
  destruct (outcome env (S (calls w))); simpl; done.
Qed.

#[global] Hint Resolve stable_ledgers_touches stable_payments_touches
  updatePaymentOrder_touches updateWalletBalance_payments : frames.





Lemma expire_one_touches env config currentTime n orderId order :
  stable (touches (eq orderId)) (expire_one env config currentTime n (orderId, order)).
Proof. unfold expire_one. cbv zeta. stable_auto. Qed.









Lemma expire_each_touches env config currentTime n orders :
  stable (touches (fun orderId => orderId ∈ orders.*1))
    (expire_each env config currentTime n orders).
Proof.
  revert n. induction orders as [|[orderId order] rest IH]; intros n; simpl.
  - apply stable_ret; tc_solve.
  - apply stable_bind; [tc_solve| |intros n'].
    + eapply stable_weaken; [|apply expire_one_touches].
      intros w w'. apply touches_weaken. intros id <-. simpl. apply list_elem_of_here.
    + eapply stable_weaken; [|apply IH].
      intros w w'. apply touches_weaken. intros id Hid. simpl.
      by apply list_elem_of_further.
Qed.

Lemma pending_snapshot_pending batchSize (p : gmap string Order) orderId :
  orderId ∈ (pending_snapshot batchSize p).*1 →
  o_status <$> p !! orderId = Some PENDING.
Proof.
  unfold pending_snapshot. intros Hin.
  apply list_elem_of_fmap in Hin as ([id o] & -> & Hin).
  apply elem_of_take in Hin as (i & Hin & _).
  apply list_elem_of_lookup_2 in Hin.
  apply list_elem_of_filter in Hin as [Hs Hin]. simpl in *.
  apply elem_of_map_to_list in Hin. by rewrite Hin, <- Hs.
Qed.

Lemma expirePendingOrders_only_pending env config batchSize w :
  only_pending_changed w (expirePendingOrders env config batchSize w).2.
Proof.
  intros id Hid. unfold expirePendingOrders, bind, roundTrip, gets. simpl.
  destruct (outcome env (calls w)); simpl; try done.
  all: destruct (pending_snapshot batchSize (payments w)) as [|e l] eqn:Hsnap; [done|].
  all: rewrite <- Hsnap.
  all: apply (expire_each_touches env config _ _
                (pending_snapshot batchSize (payments w)) (set_calls S w) id).
  all: intros Hin; apply pending_snapshot_pending in Hin; done.
Qed.








(** ** The wallet ledger *)






Lemma stable_ledgers_wallets {A} (m : M A) :
  stable (keeps ledgers) m → stable (keeps wallets) m.
Proof. apply stable_weaken. intros w w' [= _ H _]. exact H. Qed.

Lemma updatePaymentOrder_wallets env orderId status updateData :
  stable (keeps wallets) (updatePaymentOrder env orderId status updateData).
Proof.
  intros w. unfold updatePaymentOrder, bind, roundTrip. simpl.
  destruct (outcome env (calls w)); done.
Qed.

#[global] Hint Resolve stable_ledgers_wallets updatePaymentOrder_wallets : frames.




Lemma expire_each_wallets env config currentTime n orders :
  stable (keeps wallets) (expire_each env config currentTime n orders).
Proof.
  revert n. induction orders as [|[orderId order] rest IH]; intros n; simpl.
  - stable_auto.
  - unfold expire_one. cbv zeta. stable_auto.
Qed.
#[global] Hint Resolve expire_each_wallets : frames.














(** ** The lock layer, further *)

Lemma backoff_left_nonneg maxAttempts remaining : 0 ≤ backoff_left maxAttempts remaining.
Proof.
  induction remaining as [|rest IH]; simpl; [done|].
  case_decide; unfold LOCK_RETRY_DELAY; lia.
Qed.

Lemma acquireAttempts_bounded env lockKey lockToken lockExpiresAt timeout maxAttempts remaining w :
  let r := acquireAttempts env lockKey lockToken lockExpiresAt timeout maxAttempts remaining w in
  (calls r.2 ≤ calls w + remaining)%nat ∧
  clock w ≤ clock r.2 ≤ clock w + backoff_left maxAttempts remaining.
Proof.
  revert w. induction remaining as [|rest IH]; intros w; simpl.
  - lia.
  - pose proof (backoff_left_nonneg maxAttempts rest) as Hnn.
    unfold bind, roundTrip. simpl.
    destruct (outcome env (calls w)); simpl.
    + case_decide; simpl.
      * case_decide; simpl; unfold LOCK_RETRY_DELAY; lia.
      * unfold bind. simpl.
        case_decide; simpl.
        -- match goal with |- context [acquireAttempts _ _ _ _ _ _ _ ?w'] =>
             specialize (IH w') end. simpl in IH. unfold LOCK_RETRY_DELAY in *. lia.
        -- match goal with |- context [acquireAttempts _ _ _ _ _ _ _ ?w'] =>
             specialize (IH w') end. simpl in IH. unfold LOCK_RETRY_DELAY in *. lia.
    + unfold bind. simpl. case_decide; simpl.
      * match goal with |- context [acquireAttempts _ _ _ _ _ _ _ ?w'] =>
          specialize (IH w') end. simpl in IH. unfold LOCK_RETRY_DELAY in *. lia.
      * match goal with |- context [acquireAttempts _ _ _ _ _ _ _ ?w'] =>
          specialize (IH w') end. simpl in IH. unfold LOCK_RETRY_DELAY in *. lia.
    + case_decide; simpl.
      * case_decide; [lia|]. unfold LOCK_RETRY_DELAY. lia.
      * unfold bind. simpl. case_decide.
        -- match goal with |- context [acquireAttempts _ _ _ _ _ _ _ ?w'] =>
          specialize (IH w') end. simpl in IH. unfold LOCK_RETRY_DELAY in *. lia.
        -- lia.
Qed.

Lemma acquireLock_bounds env lockKey timeout maxAttempts w :
  let r := acquireLock env lockKey timeout maxAttempts w in
  (calls r.2 ≤ calls w + maxAttempts)%nat ∧
  clock w ≤ clock r.2 ≤ clock w + total_backoff maxAttempts.
Proof.
  unfold acquireLock, bind, generateLockToken, Date_now, gets. simpl.
  pose proof (backoff_left_nonneg maxAttempts maxAttempts).
  destruct (cache_live _ _); simpl; [unfold total_backoff; lia|].
  apply (acquireAttempts_bounded env lockKey _ _ timeout maxAttempts maxAttempts
           (set_draws S w)).
Qed.

(** X1. [acquireLock] blocks for a bounded time: whatever the store answers,
    it makes at most [maxAttempts] round trips and sleeps at most the sum of
    its back-off delays, three seconds with the default of three attempts;
    the clock never goes back. *)
Theorem acquireLock_bounded env lockKey timeout maxAttempts w :
  let r := acquireLock env lockKey timeout maxAttempts w in
  (calls r.2 ≤ calls w + maxAttempts)%nat ∧
  clock w ≤ clock r.2 ≤ clock w + total_backoff maxAttempts ∧
  total_backoff MAX_LOCK_ATTEMPTS = 3 * LOCK_RETRY_DELAY.
Proof.
  intros r.
  destruct (acquireLock_bounds env lockKey timeout maxAttempts w) as [H1 H2].
  split; [exact H1|split; [exact H2|reflexivity]].
Qed.

Lemma acquireAttempts_live env lockKey lockToken lockExpiresAt timeout maxAttempts
    remaining w l :
  locks w !! lockKey = Some l →
  token l ≠ lockToken →
  clock w + backoff_left maxAttempts remaining ≤ l_expiresAt l →
  let r := acquireAttempts env lockKey lockToken lockExpiresAt timeout maxAttempts remaining w in
  (∀ t, r.1 ≠ Val (Some t)) ∧ locks r.2 = locks w ∧ lockCache r.2 = lockCache w.
Proof.
  revert w. induction remaining as [|rest IH]; intros w Hl Hne Hlive; simpl.
  - done.
  - simpl in Hlive.
    pose proof (backoff_left_nonneg maxAttempts rest) as Hnn.
    assert (Hstep : ∀ w', locks w' = locks w → lockCache w' = lockCache w →
              clock w' + backoff_left maxAttempts rest ≤ l_expiresAt l →
              let r := acquireAttempts env lockKey lockToken lockExpiresAt timeout
                         maxAttempts rest w' in
              (∀ t, r.1 ≠ Val (Some t)) ∧ locks r.2 = locks w ∧ lockCache r.2 = lockCache w).
    { intros w' Hl' Hc' Hlive'. destruct (IH w') as (H1 & H2 & H3); [by rewrite Hl'|done|done|].
      simpl. rewrite H2, H3. done. }
    unfold bind, roundTrip. simpl.
    destruct (outcome env (calls w)); simpl.
    + rewrite Hl. unfold install.
      replace (l_expiresAt l <? clock w) with false
        by (symmetry; apply Z.ltb_ge; case_decide; unfold LOCK_RETRY_DELAY in *; lia).
      rewrite decide_False by done. unfold bind. simpl.
      case_decide; simpl; apply Hstep; simpl;
        rewrite ?insert_id by done; try done; lia.
    + unfold bind. simpl. case_decide; simpl; apply Hstep; simpl; try done; lia.
    + destruct (decide ((maxAttempts - rest)%nat = maxAttempts)) as [Heq|Hneq]; simpl;
        [by repeat split|].
      unfold bind. simpl. apply Hstep; simpl; try done.
      case_decide; [lia|]. lia.
Qed.

(** X2. Mutual exclusion. While the store holds a record of another token
    that stays live through all the back-off, [acquireLock] never returns a
    token, whatever the store answers, and leaves both the store record and
    the instance's cache as they were. *)
Theorem acquireLock_respects_live_lock env lockKey timeout maxAttempts w l :
  locks w !! lockKey = Some l →
  token l ≠ random env (draws w) →
  clock w + total_backoff maxAttempts ≤ l_expiresAt l →
  let r := acquireLock env lockKey timeout maxAttempts w in
  (∀ t, r.1 ≠ Val (Some t)) ∧ locks r.2 = locks w ∧ lockCache r.2 = lockCache w.
Proof.
  intros Hl Hne Hlive.
  unfold acquireLock, bind, generateLockToken, Date_now, gets. simpl.
  destruct (cache_live _ _); simpl; [done|].
  apply (acquireAttempts_live env lockKey _ _ timeout maxAttempts maxAttempts
           (set_draws S w) l); done.
Qed.

Lemma acquireLock_respects_live_lock_witness :
  let w := set_locks <["job" := lock_taken 7%N 0 30000]> (world_at 0) in
  (locks w !! "job" = Some (lock_taken 7%N 0 30000) ∧
   token (lock_taken 7%N 0 30000) ≠ random env_ok (draws w) ∧
   clock w + total_backoff 3 ≤ l_expiresAt (lock_taken 7%N 0 30000)) ∧
  let r := acquireLock env_ok "job" 30000 3 w in
  (∀ t, r.1 ≠ Val (Some t)) ∧ locks r.2 = locks w ∧ lockCache r.2 = lockCache w.
Proof.
  intros w.
  assert (H1 : locks w !! "job" = Some (lock_taken 7%N 0 30000)) by reflexivity.
  assert (H2 : token (lock_taken 7%N 0 30000) ≠ random env_ok (draws w))
    by (vm_compute; congruence).
  assert (H3 : clock w + total_backoff 3 ≤ l_expiresAt (lock_taken 7%N 0 30000))
    by (vm_compute; congruence).
  split; [done|].
  exact (acquireLock_respects_live_lock env_ok "job" 30000 3 w _ H1 H2 H3).
Defined.

Lemma isLocked_cached env lockKey w :
  cache_live (clock w) (lockCache w !! lockKey) = true →
  isLocked env lockKey w = (Val true, w).
Proof.
  intros Hc. unfold isLocked, bind, gets, Date_now, gets. simpl. by rewrite Hc.
Qed.

Lemma acquireLock_cached env lockKey timeout maxAttempts w :
  cache_live (clock w) (lockCache w !! lockKey) = true →
  acquireLock env lockKey timeout maxAttempts w = (Val None, set_draws S w).
Proof.
  intros Hc. unfold acquireLock, bind, generateLockToken, gets, Date_now, gets. simpl.
  by rewrite Hc.
Qed.

Lemma acquired_cache_live env lockKey timeout w :
  0 < timeout →
  cache_live (clock (acquired env lockKey timeout w))
    (lockCache (acquired env lockKey timeout w) !! lockKey) = true.
Proof.
  intros Ht. unfold acquired. simpl. rewrite lookup_insert_eq. simpl.
  apply Z.gtb_lt. lia.
Qed.

(** X3. A lock whose store record is absent or expired, and for which the
    instance caches no live entry, is taken at the first attempt: the token
    drawn is returned, the record written carries it with
    [expiresAt = now + timeout] and the token it replaced, no other lock and
    no ledger changes, and [isLocked] answers true from the cache from then
    on. *)
Theorem acquireLock_takes_free_lock env lockKey timeout n w :
  cache_live (clock w) (lockCache w !! lockKey) = false →
  outcome env (calls w) = Ok →
  lock_free w lockKey = true →
  0 < timeout →
  let tok := random env (draws w) in
  let r := acquireLock env lockKey timeout (S n) w in
  r.1 = Val (Some tok) ∧
  locks r.2 !! lockKey =
    Some (mkLock tok (clock w) (clock w + timeout) timeout (token <$> locks w !! lockKey)) ∧
  (∀ other, other ≠ lockKey → locks r.2 !! other = locks w !! other) ∧
  ledgers r.2 = ledgers w ∧
  ∀ env', isLocked env' lockKey r.2 = (Val true, r.2).
Proof.
  intros Hc Ho Hf Ht tok r. subst r tok.
  rewrite acquireLock_first_try by done. cbn [fst snd].
  split; [done|]. split; [unfold acquired; simpl; by rewrite lookup_insert_eq|].
  split; [intros other Hne; by rewrite acquired_locks_other|].
  split; [done|].
  intros env'. apply isLocked_cached. by apply acquired_cache_live.
Qed.

Lemma acquireLock_takes_free_lock_witness :
  let w := world_at 0 in
  (cache_live (clock w) (lockCache w !! "job") = false ∧
   outcome env_ok (calls w) = Ok ∧
   lock_free w "job" = true ∧
   0 < 30000) ∧
  let tok := random env_ok (draws w) in
  let r := acquireLock env_ok "job" 30000 3 w in
  r.1 = Val (Some tok) ∧
  locks r.2 !! "job" =
    Some (mkLock tok (clock w) (clock w + 30000) 30000 (token <$> locks w !! "job")) ∧
  (∀ other, other ≠ "job" → locks r.2 !! other = locks w !! other) ∧
  ledgers r.2 = ledgers w ∧
  ∀ env', isLocked env' "job" r.2 = (Val true, r.2).
Proof.
  intros w.
  assert (H1 : cache_live (clock w) (lockCache w !! "job") = false) by reflexivity.
  assert (H2 : outcome env_ok (calls w) = Ok) by reflexivity.
  assert (H3 : lock_free w "job" = true) by reflexivity.
  assert (H4 : 0 < 30000) by lia.
  split; [done|].
  exact (acquireLock_takes_free_lock env_ok "job" 30000 2 w H1 H2 H3 H4).
Defined.

(** X4. Round trip: a lock taken and then released with the token
    [acquireLock] returned is gone from the store and from the cache; both
    are what they were before the lock was taken, with that key removed,
    and the clock has not moved. *)
Theorem acquire_release_with_token env lockKey timeout n w :
  cache_live (clock w) (lockCache w !! lockKey) = false →
  outcome env (calls w) = Ok →
  lock_free w lockKey = true →
  outcome env (S (calls w)) = Ok →
  let tok := random env (draws w) in
  let held := (acquireLock env lockKey timeout (S n) w).2 in
  let r := releaseLock env lockKey (Some tok) held in
  r.1 = Val true ∧
  locks r.2 = delete lockKey (locks w) ∧
  lockCache r.2 = delete lockKey (lockCache w) ∧
  clock r.2 = clock w.
Proof.
  intros Hc Ho Hf Ho1 tok held r. subst r held tok.
  rewrite acquireLock_first_try by done. cbn [fst snd].
  rewrite releaseLock_result. unfold acquired at 1. simpl. rewrite Ho1.
  split; [done|].
  unfold releaseLock, bind, gets, roundTrip, acquired. simpl.
  rewrite lookup_insert_eq. simpl. rewrite decide_True by (split; [by eexists|done]).
  simpl. rewrite Ho1. simpl. rewrite lookup_insert_eq. simpl.
  rewrite decide_False by (intros H; by apply H).
  rewrite !delete_insert_eq. done.
Qed.

Lemma acquire_release_with_token_witness :
  let w := world_at 0 in
  (cache_live (clock w) (lockCache w !! "job") = false ∧
   outcome env_ok (calls w) = Ok ∧
   lock_free w "job" = true ∧
   outcome env_ok (S (calls w)) = Ok) ∧
  let tok := random env_ok (draws w) in
  let held := (acquireLock env_ok "job" 30000 3 w).2 in
  let r := releaseLock env_ok "job" (Some tok) held in
  r.1 = Val true ∧
  locks r.2 = delete "job" (locks w) ∧
  lockCache r.2 = delete "job" (lockCache w) ∧
  clock r.2 = clock w.
Proof.
  intros w.
  assert (H1 : cache_live (clock w) (lockCache w !! "job") = false) by reflexivity.
  assert (H2 : outcome env_ok (calls w) = Ok) by reflexivity.
  assert (H3 : lock_free w "job" = true) by reflexivity.
  assert (H4 : outcome env_ok (S (calls w)) = Ok) by reflexivity.
  split; [done|].
  exact (acquire_release_with_token env_ok "job" 30000 2 w H1 H2 H3 H4).
Defined.

(** X5. A release without the token, which is how the routes release,
    deletes the store record but leaves the entry in the instance's cache:
    until it expires, every [acquireLock] of that key on the instance is
    refused before any round trip, and [isLocked] answers true, although the
    store holds no lock. *)
Theorem release_without_token_keeps_cache_entry env lockKey timeout n w :
  cache_live (clock w) (lockCache w !! lockKey) = false →
  outcome env (calls w) = Ok →
  lock_free w lockKey = true →
  outcome env (S (calls w)) = Ok →
  0 < timeout →
  let held := (acquireLock env lockKey timeout (S n) w).2 in
  let r := releaseLock env lockKey None held in
  r.1 = Val true ∧
  locks r.2 !! lockKey = None ∧
  (∀ env' timeout' maxAttempts,
     acquireLock env' lockKey timeout' maxAttempts r.2 = (Val None, set_draws S r.2)) ∧
  (∀ env', isLocked env' lockKey r.2 = (Val true, r.2)).
Proof.
  intros Hc Ho Hf Ho1 Ht held r. subst r held.
  rewrite acquireLock_first_try by done. cbn [fst snd].
  rewrite releaseLock_result, releaseLock_lookup. unfold acquired at 1 2. simpl.
  rewrite Ho1. split; [done|]. split; [by rewrite lookup_insert_eq|].
  assert (Hlive : cache_live
            (clock (releaseLock env lockKey None (acquired env lockKey timeout w)).2)
            (lockCache (releaseLock env lockKey None (acquired env lockKey timeout w)).2
               !! lockKey) = true).
  { unfold releaseLock, bind, gets, roundTrip, acquired. simpl.
    rewrite lookup_insert_eq. simpl. try rewrite decide_False by (by intros [[? ?] _]).
    simpl. rewrite Ho1. simpl. rewrite lookup_insert_eq. simpl.
    apply Z.gtb_lt. lia. }
  split; intros; [by apply acquireLock_cached|by apply isLocked_cached].
Qed.

Lemma release_without_token_keeps_cache_entry_witness :
  let w := world_at 0 in
  (cache_live (clock w) (lockCache w !! "job") = false ∧
   outcome env_ok (calls w) = Ok ∧
   lock_free w "job" = true ∧
   outcome env_ok (S (calls w)) = Ok ∧
   0 < 30000) ∧
  let held := (acquireLock env_ok "job" 30000 3 w).2 in
  let r := releaseLock env_ok "job" None held in
  r.1 = Val true ∧
  locks r.2 !! "job" = None ∧
  (∀ env' timeout' maxAttempts,
     acquireLock env' "job" timeout' maxAttempts r.2 = (Val None, set_draws S r.2)) ∧
  (∀ env', isLocked env' "job" r.2 = (Val true, r.2)).
Proof.
  intros w.
  assert (H1 : cache_live (clock w) (lockCache w !! "job") = false) by reflexivity.
  assert (H2 : outcome env_ok (calls w) = Ok) by reflexivity.
  assert (H3 : lock_free w "job" = true) by reflexivity.
  assert (H4 : outcome env_ok (S (calls w)) = Ok) by reflexivity.
  assert (H5 : 0 < 30000) by lia.
  split; [done|].
  exact (release_without_token_keeps_cache_entry env_ok "job" 30000 2 w H1 H2 H3 H4 H5).
Defined.

(** X6. [isLocked] never throws and errs on the locked side: it answers
    false only when the instance caches no live entry, the store has
    answered, and the store record is absent or expired. It never writes to
    the ledgers. *)
Theorem isLocked_false_only_when_free env lockKey w :
  let r := isLocked env lockKey w in
  (r.1 = Val true ∨ r.1 = Val false) ∧
  (r.1 = Val false →
     cache_live (clock w) (lockCache w !! lockKey) = false ∧
     lock_free w lockKey = true ∧
     outcome env (calls w) ≠ Fault) ∧
  ledgers r.2 = ledgers w.
Proof.
  unfold isLocked, bind, gets, Date_now, gets, lock_free. simpl.
  destruct (cache_live _ _) eqn:Hc; simpl; [by repeat split; auto|].
  unfold try_catch, bind, roundTrip, gets, Date_now, gets, ret, throw. simpl.
  pose proof (releaseLock_ledgers env lockKey None (set_calls S w)) as Hled.
  unfold keeps in Hled. simpl in Hled.
  destruct (outcome env (calls w)) eqn:Ho; simpl; try (by repeat split; auto);
    (destruct (locks w !! lockKey) as [l|] eqn:Hl; simpl; [|by repeat split; auto]);
    (destruct (l_expiresAt l <? clock w) eqn:He; simpl; [|by repeat split; auto]);
    destruct (releaseLock env lockKey None (set_calls S w)) as [[b|e] w'] eqn:Hrel;
    simpl in *; by repeat split; auto.
Qed.

(** X7. [isLocked] on an expired store record releases it on the way: the
    record is deleted when the releasing transaction commits, and the answer
    is false unless that release throws, in which case it is true. *)
Theorem isLocked_reaps_expired_record env lockKey w l :
  cache_live (clock w) (lockCache w !! lockKey) = false →
  locks w !! lockKey = Some l →
  l_expiresAt l < clock w →
  outcome env (calls w) ≠ Fault →
  let r := isLocked env lockKey w in
  r.1 = Val (bool_decide (outcome env (S (calls w)) = Fault)) ∧
  locks r.2 =
    (if decide (outcome env (S (calls w)) = Ok) then delete lockKey (locks w) else locks w).
Proof.
  intros Hc Hl He Ho.
  assert (Hlt : (l_expiresAt l <? clock w) = true) by (apply Z.ltb_lt; lia).
  pose proof (releaseLock_result env lockKey None (set_calls S w)) as Hr.
  pose proof (releaseLock_locks env lockKey None (set_calls S w)) as Hk.
  simpl in Hr, Hk. rewrite Hl in Hk. simpl in Hk.
  unfold isLocked, bind, gets, Date_now, gets. simpl. rewrite Hc.
  unfold try_catch, bind, roundTrip, gets, Date_now, gets, ret, throw. simpl.
  destruct (outcome env (calls w)) eqn:Ho0; try done; simpl; rewrite Hl; simpl;
    rewrite Hlt;
    destruct (releaseLock env lockKey None (set_calls S w)) as [[b|e] w'] eqn:Hrel;
    simpl in *; destruct (outcome env (S (calls w))); simplify_eq; done.
Qed.

Lemma isLocked_reaps_expired_record_witness :
  let w := set_clock (fun _ => 40000)
             (set_locks <["order:o1" := lock_taken 7%N 0 30000]> (world_at 0)) in
  (cache_live (clock w) (lockCache w !! "order:o1") = false ∧
   locks w !! "order:o1" = Some (lock_taken 7%N 0 30000) ∧
   l_expiresAt (lock_taken 7%N 0 30000) < clock w ∧
   outcome env_ok (calls w) ≠ Fault) ∧
  (isLocked env_ok "order:o1" w).1 = Val (bool_decide (outcome env_ok (S (calls w)) = Fault)) ∧
  locks (isLocked env_ok "order:o1" w).2 =
    (if decide (outcome env_ok (S (calls w)) = Ok)
     then delete "order:o1" (locks w) else locks w).
Proof.
  intros w.
  assert (H1 : cache_live (clock w) (lockCache w !! "order:o1") = false) by reflexivity.
  assert (H2 : locks w !! "order:o1" = Some (lock_taken 7%N 0 30000)) by reflexivity.
  assert (H3 : l_expiresAt (lock_taken 7%N 0 30000) < clock w) by (simpl; lia).
  assert (H4 : outcome env_ok (calls w) ≠ Fault) by (simpl; congruence).
  split; [done|].
  exact (isLocked_reaps_expired_record env_ok "order:o1" w _ H1 H2 H3 H4).
Defined.

(** X8. The periodic sweep of the cache drops exactly the entries with
    [expiresAt < now]: no entry that [acquireLock] or [isLocked] would count
    as live is lost, so their fast path answers as before, and the store is
    not touched. *)
Theorem cleanupExpiredLocks_keeps_live_entries w :
  let w' := (cleanupExpiredLocks w).2 in
  (∀ key, cache_live (clock w') (lockCache w' !! key)
          = cache_live (clock w) (lockCache w !! key)) ∧
  (∀ key c, lockCache w' !! key = Some c ↔
            lockCache w !! key = Some c ∧ clock w ≤ c_expiresAt c) ∧
  locks w' = locks w ∧ idempotency w' = idempotency w ∧ ledgers w' = ledgers w.
Proof.
  unfold cleanupExpiredLocks, bind, Date_now, gets, modify. simpl.
  assert (Hiff : ∀ key c,
    filter (λ kv : string * CacheEntry, ¬ c_expiresAt kv.2 < clock w) (lockCache w) !! key
      = Some c ↔ lockCache w !! key = Some c ∧ clock w ≤ c_expiresAt c).
  { intros key c. rewrite map_lookup_filter_Some. simpl. split; intros [? ?]; split; auto; lia. }
  split; [|split; [exact Hiff|done]].
  intros key. unfold cache_live.
  destruct (filter _ _ !! key) as [c|] eqn:Hf.
  - apply Hiff in Hf as [-> _]. done.
  - destruct (lockCache w !! key) as [c|] eqn:Hk; [|done].
    symmetry. rewrite Z.gtb_ltb. apply Z.ltb_ge.
    destruct (decide (clock w ≤ c_expiresAt c)) as [Hle|Hgt]; [|lia].
    assert (Hs : filter (λ kv : string * CacheEntry, ¬ c_expiresAt kv.2 < clock w)
                   (lockCache w) !! key = Some c) by (apply Hiff; done).
    congruence.
Qed.

Lemma releaseLock_own_cache env lockKey tok w c :
  lockCache w !! lockKey = Some c → c_token c = Some tok →
  lockCache (releaseLock env lockKey (Some tok) w).2 = delete lockKey (lockCache w).
Proof.
  intros Hc Ht. unfold releaseLock, bind, gets, roundTrip. simpl. rewrite Hc.
  rewrite decide_True by (split; [by eexists|done]). simpl.
  destruct (outcome env (calls w)); reflexivity.
Qed.

(** X9. [withLock] releases the lock on every exit of the operation,
    whether it returns or throws, provided the operation leaves the lock
    alone: the instance's cache entry is gone, the store record is gone when
    the releasing transaction commits, and the result is the operation's,
    but for a release that throws, whose error replaces it. *)
Theorem withLock_releases_on_every_exit {A} env lockKey (operation : M A) timeout w :
  cache_live (clock w) (lockCache w !! lockKey) = false →
  outcome env (calls w) = Ok →
  lock_free w lockKey = true →
  let held := acquired env lockKey timeout w in
  let ran := operation held in
  locks ran.2 !! lockKey = locks held !! lockKey →
  lockCache ran.2 !! lockKey = lockCache held !! lockKey →
  let r := withLock env lockKey operation timeout w in
  r.1 = (if decide (outcome env (calls ran.2) = Fault)
         then Throw store_unavailable else ran.1) ∧
  locks r.2 !! lockKey =
    (if decide (outcome env (calls ran.2) = Ok) then None else locks held !! lockKey) ∧
  lockCache r.2 !! lockKey = None ∧
  ledgers r.2 = ledgers ran.2.
Proof.
  intros Hc Ho Hf held ran Hl Hk r. subst r.
  unfold withLock, bind. unfold MAX_LOCK_ATTEMPTS.
  rewrite acquireLock_first_try by done. fold held.
  unfold try_finally, bind. fold ran. destruct ran as [res w2] eqn:Hran. simpl in *.
  assert (Hl2 : locks w2 !! lockKey = Some (mkLock (random env (draws w)) (clock w)
                  (clock w + timeout) timeout (token <$> locks w !! lockKey))).
  { rewrite Hl. unfold held, acquired. simpl. by rewrite lookup_insert_eq. }
  assert (Hk2 : lockCache w2 !! lockKey =
                  Some (CLock (random env (draws w)) (clock w + timeout) (clock w))).
  { rewrite Hk. unfold held, acquired. simpl. by rewrite lookup_insert_eq. }
  pose proof (releaseLock_result env lockKey (Some (random env (draws w))) w2) as Hr.
  pose proof (releaseLock_lookup env lockKey (Some (random env (draws w))) w2) as Hlk.
  pose proof (releaseLock_own_cache env lockKey (random env (draws w)) w2 _ Hk2 eq_refl) as Hca.
  pose proof (releaseLock_ledgers env lockKey (Some (random env (draws w))) w2) as Hled.
  unfold keeps in Hled.
  rewrite Hl2 in Hlk. simpl in Hlk. rewrite decide_False in Hlk by (intros H; by apply H).
  rewrite <- Hl, Hl2.
  destruct (releaseLock env lockKey (Some (random env (draws w))) w2) as [[b|e] w3];
    simpl in *; rewrite Hca, lookup_delete_eq;
    destruct (outcome env (calls w2)); simplify_eq; simpl;
    repeat split; try done; unfold ledgers; congruence.
Qed.

Lemma withLock_releases_on_every_exit_witness :
  let w := world_at 0 in
  let held := acquired env_ok "job" 30000 w in
  let operation : M Z := throw "boom" in
  (cache_live (clock w) (lockCache w !! "job") = false ∧
   outcome env_ok (calls w) = Ok ∧
   lock_free w "job" = true ∧
   locks (operation held).2 !! "job" = locks held !! "job" ∧
   lockCache (operation held).2 !! "job" = lockCache held !! "job") ∧
  let r := withLock env_ok "job" operation 30000 w in
  r.1 = (if decide (outcome env_ok (calls (operation held).2) = Fault)
         then Throw store_unavailable else (operation held).1) ∧
  locks r.2 !! "job" =
    (if decide (outcome env_ok (calls (operation held).2) = Ok)
     then None else locks held !! "job") ∧
  lockCache r.2 !! "job" = None ∧
  ledgers r.2 = ledgers (operation held).2.
Proof.
  intros w held operation.
  assert (H1 : cache_live (clock w) (lockCache w !! "job") = false) by reflexivity.
  assert (H2 : outcome env_ok (calls w) = Ok) by reflexivity.
  assert (H3 : lock_free w "job" = true) by reflexivity.
  assert (H4 : locks (operation held).2 !! "job" = locks held !! "job") by reflexivity.
  assert (H5 : lockCache (operation held).2 !! "job" = lockCache held !! "job")
    by reflexivity.
  split; [done|].
  exact (withLock_releases_on_every_exit env_ok "job" operation 30000 w H1 H2 H3 H4 H5).
Defined.

(** X10. Under a live lock of another holder [withLock] throws without
    running the operation: the world it leaves is that of the failed
    [acquireLock], with the locks and the ledgers unchanged. *)
Theorem withLock_skips_operation_under_live_lock {A} env lockKey (operation : M A)
    timeout w l :
  locks w !! lockKey = Some l →
  token l ≠ random env (draws w) →
  clock w + total_backoff MAX_LOCK_ATTEMPTS ≤ l_expiresAt l →
  let r := withLock env lockKey operation timeout w in
  (∃ e, r.1 = Throw e) ∧
  r.2 = (acquireLock env lockKey timeout MAX_LOCK_ATTEMPTS w).2 ∧
  locks r.2 = locks w ∧ ledgers r.2 = ledgers w.
Proof.
  intros Hl Htok Hlive r. subst r.
  pose proof (acquireLock_ledgers env lockKey timeout MAX_LOCK_ATTEMPTS w) as Hled.
  unfold keeps in Hled.
  assert (Hacq : (∀ t, (acquireLock env lockKey timeout MAX_LOCK_ATTEMPTS w).1 ≠ Val (Some t)) ∧
                 locks (acquireLock env lockKey timeout MAX_LOCK_ATTEMPTS w).2 = locks w).
  { unfold acquireLock, bind, generateLockToken, gets, Date_now, gets. simpl.
    destruct (cache_live _ _); simpl; [by split|].
    edestruct (acquireAttempts_live env lockKey (random env (draws w)) (clock w + timeout)
                 timeout MAX_LOCK_ATTEMPTS MAX_LOCK_ATTEMPTS (set_draws S w) l)
      as (H1 & H2 & _); simpl; eauto. }
  destruct Hacq as [Hno Hlocks].
  unfold withLock, bind.
  destruct (acquireLock env lockKey timeout MAX_LOCK_ATTEMPTS w) as [[[t|]|e] w1];
    simpl in *.
  - by destruct (Hno t).
  - unfold throw. simpl. split; [by eexists|done].
  - split; [by eexists|done].
Qed.

Lemma withLock_skips_operation_under_live_lock_witness :
  let w := set_locks <["job" := lock_taken 7%N 0 30000]> (world_at 0) in
  (locks w !! "job" = Some (lock_taken 7%N 0 30000) ∧
   token (lock_taken 7%N 0 30000) ≠ random env_ok (draws w) ∧
   clock w + total_backoff MAX_LOCK_ATTEMPTS ≤ l_expiresAt (lock_taken 7%N 0 30000)) ∧
  let r := withLock env_ok "job" (credit_operation env_ok) 30000 w in
  (∃ e, r.1 = Throw e) ∧
  r.2 = (acquireLock env_ok "job" 30000 MAX_LOCK_ATTEMPTS w).2 ∧
  locks r.2 = locks w ∧ ledgers r.2 = ledgers w.
Proof.
  intros w.
  assert (H1 : locks w !! "job" = Some (lock_taken 7%N 0 30000)) by reflexivity.
  assert (H2 : token (lock_taken 7%N 0 30000) ≠ random env_ok (draws w))
    by (vm_compute; congruence).
  assert (H3 : clock w + total_backoff MAX_LOCK_ATTEMPTS
               ≤ l_expiresAt (lock_taken 7%N 0 30000)) by (vm_compute; congruence).
  split; [done|].
  exact (withLock_skips_operation_under_live_lock env_ok "job" (credit_operation env_ok)
           30000 w _ H1 H2 H3).
Defined.

(** X11. [forceReleaseLock] removes the lock whoever holds it, from the
    store and from the instance's cache, so that the next [acquireLock] on
    the instance takes it at its first attempt. *)
Theorem forceReleaseLock_frees_any_lock env lockKey timeout n w :
  outcome env (calls w) ≠ Fault →
  outcome env (S (calls w)) = Ok →
  let r := forceReleaseLock env lockKey w in
  r.1 = Val true ∧
  locks r.2 = delete lockKey (locks w) ∧
  lockCache r.2 = delete lockKey (lockCache w) ∧
  (acquireLock env lockKey timeout (S n) r.2).1 = Val (Some (random env (draws w))).
Proof.
  intros Ho Ho1 r. subst r.
  assert (Hrun : forceReleaseLock env lockKey w =
            (Val true, set_lockCache (delete lockKey)
                         (set_locks (delete lockKey) (set_calls S w)))).
  { unfold forceReleaseLock, try_catch, bind, roundTrip, modify, ret. simpl.
    destruct (outcome env (calls w)); done. }
  rewrite Hrun. simpl. repeat split.
  rewrite acquireLock_first_try; [done| | |]; simpl.
  - by rewrite lookup_delete_eq.
  - done.
  - unfold lock_free. simpl. by rewrite lookup_delete_eq.
Qed.

Lemma forceReleaseLock_frees_any_lock_witness :
  let w := set_locks <["order:o1" := lock_taken 7%N 0 30000]> (world_at 0) in
  (outcome env_ok (calls w) ≠ Fault ∧ outcome env_ok (S (calls w)) = Ok) ∧
  let r := forceReleaseLock env_ok "order:o1" w in
  r.1 = Val true ∧
  locks r.2 = delete "order:o1" (locks w) ∧
  lockCache r.2 = delete "order:o1" (lockCache w) ∧
  (acquireLock env_ok "order:o1" 30000 3 r.2).1 = Val (Some (random env_ok (draws w))).
Proof.
  intros w.
  assert (H1 : outcome env_ok (calls w) ≠ Fault) by (simpl; congruence).
  assert (H2 : outcome env_ok (S (calls w)) = Ok) by reflexivity.
  split; [done|].
  exact (forceReleaseLock_frees_any_lock env_ok "order:o1" 30000 2 w H1 H2).
Defined.




(** X13. The result is shared through the store for five minutes. A first
    call that runs its operation stores the result with
    [expiresAt = now + IDEMPOTENCY_TTL]; an instance with no cache entry that
    reads this record before that instant returns the stored result and
    writes nothing to the ledgers. *)
Theorem withIdempotency_shares_result_within_ttl env idempotencyKey operation w result w1 :
  lockCache w !! memoryKey idempotencyKey = None →
  idempotency w !! idempotencyKey = None →
  outcome env (calls w) ≠ Fault →
  operation (set_calls S w) = (Val result, w1) →
  outcome env (calls w1) ≠ Fault →
  let first := withIdempotency env idempotencyKey operation w in
  first.1 = Val result ∧
  idempotency first.2 !! idempotencyKey =
    Some (mkIdemRecord result (clock w1 + IDEMPOTENCY_TTL) (clock w1)
            (String.substring 0 32 idempotencyKey)) ∧
  ∀ env' operation' elsewhere,
    lockCache elsewhere !! memoryKey idempotencyKey = None →
    idempotency elsewhere !! idempotencyKey = idempotency first.2 !! idempotencyKey →
    outcome env' (calls elsewhere) ≠ Fault →
    clock elsewhere < clock w1 + IDEMPOTENCY_TTL →
    let second := withIdempotency env' idempotencyKey operation' elsewhere in
    second.1 = Val result ∧ ledgers second.2 = ledgers elsewhere.
Proof.
  intros Hc Hd Ho Hop Ho1 first.
  assert (Hfirst : first =
    (Val result,
     set_lockCache <[memoryKey idempotencyKey := CIdem result (clock w1 + IDEMPOTENCY_TTL)]>
       (set_idempotency
          <[idempotencyKey := mkIdemRecord result (clock w1 + IDEMPOTENCY_TTL) (clock w1)
               (String.substring 0 32 idempotencyKey)]> (set_calls S w1)))).
  { subst first. unfold withIdempotency, bind, gets, Date_now, gets. simpl. rewrite Hc.
    unfold roundTrip, modify, ret, throw. simpl.
    destruct (outcome env (calls w)); try done; simpl; rewrite Hd, Hop; simpl;
      destruct (outcome env (calls w1)); done. }
  rewrite Hfirst. simpl. split; [done|]. rewrite lookup_insert_eq. split; [done|].
  intros env' operation' elsewhere Hc' Hd' Ho' Hlive.
  rewrite (withIdempotency_durable_hit env' idempotencyKey operation' elsewhere _ Hc' Ho' Hd')
    by done.
  done.
Qed.

Lemma withIdempotency_shares_result_within_ttl_witness :
  let w := world_at 0 in
  let operation := credit_operation env_ok in
  let w1 := (operation (set_calls S w)).2 in
  (lockCache w !! memoryKey "key-1" = None ∧
   idempotency w !! "key-1" = None ∧
   outcome env_ok (calls w) ≠ Fault ∧
   operation (set_calls S w) = (Val (JNum 100), w1) ∧
   outcome env_ok (calls w1) ≠ Fault) ∧
  let first := withIdempotency env_ok "key-1" operation w in
  first.1 = Val (JNum 100) ∧
  idempotency first.2 !! "key-1" =
    Some (mkIdemRecord (JNum 100) (clock w1 + IDEMPOTENCY_TTL) (clock w1)
            (String.substring 0 32 "key-1")) ∧
  ∀ env' operation' elsewhere,
    lockCache elsewhere !! memoryKey "key-1" = None →
    idempotency elsewhere !! "key-1" = idempotency first.2 !! "key-1" →
    outcome env' (calls elsewhere) ≠ Fault →
    clock elsewhere < clock w1 + IDEMPOTENCY_TTL →
    let second := withIdempotency env' "key-1" operation' elsewhere in
    second.1 = Val (JNum 100) ∧ ledgers second.2 = ledgers elsewhere.
Proof.
  intros w operation w1.
  assert (H1 : lockCache w !! memoryKey "key-1" = None) by reflexivity.
  assert (H2 : idempotency w !! "key-1" = None) by reflexivity.
  assert (H3 : outcome env_ok (calls w) ≠ Fault) by (simpl; congruence).
  assert (H4 : operation (set_calls S w) = (Val (JNum 100), w1)) by (vm_compute; reflexivity).
  assert (H5 : outcome env_ok (calls w1) ≠ Fault) by (simpl; congruence).
  split; [done|].
  exact (withIdempotency_shares_result_within_ttl env_ok "key-1" operation w (JNum 100) w1
           H1 H2 H3 H4 H5).
Defined.

(** X14. A failure is not memoised: when the operation throws,
    [withIdempotency] throws the same error and leaves the world as the
    operation left it, with no record and no cache entry added. *)
Theorem withIdempotency_forgets_a_failure env idempotencyKey operation w e w1 :
  lockCache w !! memoryKey idempotencyKey = None →
  (∀ data, idempotency w !! idempotencyKey = Some data → i_expiresAt data ≤ clock w) →
  outcome env (calls w) ≠ Fault →
  operation (set_calls S w) = (Throw e, w1) →
  withIdempotency env idempotencyKey operation w = (Throw e, w1).
Proof.
  intros Hc Hd Ho Hop.
  unfold withIdempotency, bind, gets, roundTrip, Date_now, gets. simpl.
  rewrite Hc. destruct (outcome env (calls w)) eqn:E; [| |done]; simpl.
  all: destruct (idempotency w !! idempotencyKey) as [data|] eqn:Hdata;
    [replace (i_expiresAt data >? clock w) with false
       by (symmetry; rewrite Z.gtb_ltb; apply Z.ltb_ge; by apply Hd)|];
    rewrite Hop; reflexivity.
Qed.

Lemma withIdempotency_forgets_a_failure_witness :
  let w := world_at 0 in
  let operation : M JsVal := throw "boom" in
  (lockCache w !! memoryKey "key-1" = None ∧
   (∀ data, idempotency w !! "key-1" = Some data → i_expiresAt data ≤ clock w) ∧
   outcome env_ok (calls w) ≠ Fault ∧
   operation (set_calls S w) = (Throw "boom", set_calls S w)) ∧
  withIdempotency env_ok "key-1" operation w = (Throw "boom", set_calls S w).
Proof.
  intros w operation.
  assert (H1 : lockCache w !! memoryKey "key-1" = None) by reflexivity.
  assert (H2 : ∀ data, idempotency w !! "key-1" = Some data → i_expiresAt data ≤ clock w)
    by (intros data; vm_compute; congruence).
  assert (H3 : outcome env_ok (calls w) ≠ Fault) by (simpl; congruence).
  assert (H4 : operation (set_calls S w) = (Throw "boom", set_calls S w)) by reflexivity.
  split; [done|].
  exact (withIdempotency_forgets_a_failure env_ok "key-1" operation w "boom" _ H1 H2 H3 H4).
Defined.

(** X15. [cleanupIdempotencyKeys] never throws, never deletes a record
    that has not expired and adds none, whatever the store answers; it
    reports at most the number of expired records, and touches neither the
    instance's cache nor the ledgers. *)
Theorem cleanupIdempotencyKeys_spares_live_records env w :
  let r := cleanupIdempotencyKeys env w in
  let expired := filter (fun kv => i_expiresAt kv.2 < clock w) (idempotency w) in
  (∃ n, r.1 = Val n ∧ (n ≤ size expired)%nat) ∧
  (∀ key data, idempotency w !! key = Some data → clock w ≤ i_expiresAt data →
     idempotency r.2 !! key = Some data) ∧
  (∀ key data, idempotency r.2 !! key = Some data → idempotency w !! key = Some data) ∧
  lockCache r.2 = lockCache w ∧ ledgers r.2 = ledgers w.
Proof.
  intros r expired. subst r.
  assert (Hdiff : ∀ key data,
            (idempotency w ∖ expired) !! key = Some data ↔
            idempotency w !! key = Some data ∧ clock w ≤ i_expiresAt data).
  { intros key data. rewrite lookup_difference_Some. unfold expired.
    rewrite map_lookup_filter_None. simpl. split.
    - intros [Hk [Hn|Hn]]; [congruence|]. split; [done|].
      specialize (Hn _ Hk). lia.
    - intros [Hk Hle]. split; [done|]. right. intros x Hx. simplify_eq. lia. }
  unfold cleanupIdempotencyKeys, try_catch, bind, roundTrip, gets, Date_now, gets,
    modify, ret, throw. simpl.
  destruct (outcome env (calls w)); simpl;
    try (split; [exists O; split; [done|lia]|by repeat split]);
    (case_decide; simpl; [split; [exists O; split; [done|lia]|by repeat split]|]);
    fold expired;
    (case_decide; simpl; [|split; [eexists; split; [done|lia]|by repeat split]]);
    (destruct (outcome env (S (calls w))); simpl;
     try (split; [exists O; split; [done|lia]|by repeat split]));
    (split; [eexists; split; [done|lia]|]);
    (split; [intros key data Hk Hle; by apply Hdiff|]);
    (split; [intros key data Hk; by apply Hdiff in Hk as [? _]|done]).
Qed.

(** X16. When the store answers both round trips,
    [cleanupIdempotencyKeys] leaves exactly the records with
    [expiresAt >= now] and returns the number of records it removed. *)
Theorem cleanupIdempotencyKeys_removes_expired_records env w :
  outcome env (calls w) ≠ Fault →
  outcome env (S (calls w)) ≠ Fault →
  let r := cleanupIdempotencyKeys env w in
  r.1 = Val (size (filter (fun kv => i_expiresAt kv.2 < clock w) (idempotency w))) ∧
  ∀ key data, idempotency r.2 !! key = Some data ↔
              idempotency w !! key = Some data ∧ clock w ≤ i_expiresAt data.
Proof.
  intros Ho Ho1 r. subst r.
  set (expired := filter (fun kv => i_expiresAt kv.2 < clock w) (idempotency w)).
  assert (Hdiff : ∀ key data,
            (idempotency w ∖ expired) !! key = Some data ↔
            idempotency w !! key = Some data ∧ clock w ≤ i_expiresAt data).
  { intros key data. rewrite lookup_difference_Some. unfold expired.
    rewrite map_lookup_filter_None. simpl. split.
    - intros [Hk [Hn|Hn]]; [congruence|]. split; [done|].
      specialize (Hn _ Hk). lia.
    - intros [Hk Hle]. split; [done|]. right. intros x Hx. simplify_eq. lia. }
  assert (Hnone : size expired = O → ∀ key data,
            idempotency w !! key = Some data ↔
            idempotency w !! key = Some data ∧ clock w ≤ i_expiresAt data).
  { intros Hz key data. apply map_size_empty_iff in Hz.
    rewrite <- Hdiff, Hz, map_difference_empty. done. }
  unfold cleanupIdempotencyKeys, try_catch, bind, roundTrip, gets, Date_now, gets,
    modify, ret, throw. simpl.
  destruct (outcome env (calls w)); try done; simpl.
  all: destruct (decide (idempotency w = ∅)) as [He|He]; simpl;
    [split; [by unfold expired; rewrite He, map_filter_empty|
             intros key data; rewrite He, lookup_empty; split; [done|by intros [? ?]]]|].
  all: fold expired; destruct (decide (0 < size expired)%nat) as [Hpos|Hpos]; simpl;
    [|split; [done|apply Hnone; lia]].
  all: destruct (outcome env (S (calls w))); try done; simpl; split; done.
Qed.

Lemma cleanupIdempotencyKeys_removes_expired_records_witness :
  let w := set_idempotency
             (fun _ => {["old" := mkIdemRecord (JNum 1) 100 0 "old";
                         "new" := mkIdemRecord (JNum 2) 900 600 "new"]})
             (world_at 500) in
  (outcome env_ok (calls w) ≠ Fault ∧ outcome env_ok (S (calls w)) ≠ Fault) ∧
  let r := cleanupIdempotencyKeys env_ok w in
  r.1 = Val (size (filter (fun kv => i_expiresAt kv.2 < clock w) (idempotency w))) ∧
  ∀ key data, idempotency r.2 !! key = Some data ↔
              idempotency w !! key = Some data ∧ clock w ≤ i_expiresAt data.
Proof.
  intros w.
  assert (H1 : outcome env_ok (calls w) ≠ Fault) by (simpl; congruence).
  assert (H2 : outcome env_ok (S (calls w)) ≠ Fault) by (simpl; congruence).
  split; [done|].
  exact (cleanupIdempotencyKeys_removes_expired_records env_ok w H1 H2).
Defined.

(** X17. [getLockInfo] reads the store record and nothing else: it writes
    nothing, ignores the instance's cache, and answers null both for a
    missing record and for a store error; the record it returns is the
    stored one, flagged expired exactly when [isLocked] would not count it as
    held, with [remainingMs] cut at zero and [ageMs] counted from
    [acquiredAt]. *)
Theorem getLockInfo_reads_the_store_record env lockKey w :
  let r := getLockInfo env lockKey w in
  r.2 = set_calls S w ∧
  (r.1 = Val None ↔ locks w !! lockKey = None ∨ outcome env (calls w) = Fault) ∧
  ∀ info, r.1 = Val (Some info) →
    locks w !! lockKey = Some (li_lock info) ∧
    li_isExpired info = negb (lock_held w lockKey) ∧
    li_remainingMs info = Z.max 0 (l_expiresAt (li_lock info) - clock w) ∧
    clock w = acquiredAt (li_lock info) + li_ageMs info.
Proof.
  unfold getLockInfo, try_catch, bind, roundTrip, gets, Date_now, gets, ret, throw, lock_held.
  simpl.
  destruct (outcome env (calls w)) eqn:Ho; simpl;
    try (split; [done|]; split; [split; [by right|done]|done]).
  all: destruct (locks w !! lockKey) as [l|] eqn:Hl; simpl.
  all: split; [done|]; split; try (split; [by left|done]); try done.
  all: try (split; [done|intros [|]; congruence]).
  all: intros info [= <-]; simpl; rewrite negb_involutive; repeat split; lia.
Qed.

(** ** firebase.js, further *)

Lemma savePaymentOrder_run env orderId orderData w :
  outcome env (calls w) ≠ Fault →
  savePaymentOrder env orderId orderData w =
    (Val tt, set_payments <[orderId := orderData]> (set_calls S w)).
Proof.
  intros Ho. unfold savePaymentOrder, bind, roundTrip, modify. simpl.
  destruct (outcome env (calls w)); done.
Qed.

(** X18. A function of firebase.js whose first round trip fails throws the
    store's error and writes nothing. *)
Theorem firebase_fault_writes_nothing env w :
  outcome env (calls w) = Fault →
  let failed {A} (m : M A) := m w = (Throw store_unavailable, set_calls S w) in
  failed (getUPIDetails env) ∧
  (∀ orderId orderData, failed (savePaymentOrder env orderId orderData)) ∧
  (∀ orderId, failed (getPaymentOrder env orderId)) ∧
  (∀ orderId status updateData, failed (updatePaymentOrder env orderId status updateData)) ∧
  (∀ userId amount orderId transactionType,
     failed (updateWalletBalance env userId amount orderId transactionType)) ∧
  (∀ userId, failed (getWalletBalance env userId)).
Proof.
  intros Ho failed. subst failed. cbv beta.
  unfold getUPIDetails, savePaymentOrder, getPaymentOrder, updatePaymentOrder,
    updateWalletBalance, getWalletBalance, bind, roundTrip. simpl. rewrite Ho.
  by repeat split.
Qed.

Lemma firebase_fault_writes_nothing_witness :
  let env := env_with [(0%nat, Fault)] in
  let w := world_at 0 in
  outcome env (calls w) = Fault ∧
  let failed {A} (m : M A) := m w = (Throw store_unavailable, set_calls S w) in
  failed (getUPIDetails env) ∧
  (∀ orderId orderData, failed (savePaymentOrder env orderId orderData)) ∧
  (∀ orderId, failed (getPaymentOrder env orderId)) ∧
  (∀ orderId status updateData, failed (updatePaymentOrder env orderId status updateData)) ∧
  (∀ userId amount orderId transactionType,
     failed (updateWalletBalance env userId amount orderId transactionType)) ∧
  (∀ userId, failed (getWalletBalance env userId)).
Proof.
  intros env w.
  assert (H : outcome env (calls w) = Fault) by reflexivity.
  split; [exact H|].
  exact (firebase_fault_writes_nothing env w H).
Defined.

(** X19. Round trip: [getPaymentOrder] after [savePaymentOrder] returns the
    order saved, the other orders read as before, and the wallets and the
    locks are not touched. *)
Theorem savePaymentOrder_then_getPaymentOrder env env' orderId orderData w :
  outcome env (calls w) ≠ Fault →
  outcome env' (S (calls w)) ≠ Fault →
  let saved := (savePaymentOrder env orderId orderData w).2 in
  (getPaymentOrder env' orderId saved).1 = Val (Some orderData) ∧
  (∀ other, other ≠ orderId →
     (getPaymentOrder env' other saved).1 = Val (payments w !! other)) ∧
  wallets saved = wallets w ∧ locks saved = locks w.
Proof.
  intros Ho Ho' saved. subst saved.
  rewrite savePaymentOrder_run by done. cbn [snd].
  split; [|split; [|done]].
  - rewrite getPaymentOrder_run by done. simpl. by rewrite lookup_insert_eq.
  - intros other Hne. rewrite getPaymentOrder_run by done. simpl.
    by rewrite lookup_insert_ne.
Qed.

Lemma savePaymentOrder_then_getPaymentOrder_witness :
  let w := world_at 0 in
  let o2 := mkOrder "o2" 250 "bob" "shop@upi" PENDING 0 (Some 300000) None ∅ in
  (outcome env_ok (calls w) ≠ Fault ∧ outcome env_ok (S (calls w)) ≠ Fault) ∧
  let saved := (savePaymentOrder env_ok "o2" o2 w).2 in
  (getPaymentOrder env_ok "o2" saved).1 = Val (Some o2) ∧
  (∀ other, other ≠ "o2" →
     (getPaymentOrder env_ok other saved).1 = Val (payments w !! other)) ∧
  wallets saved = wallets w ∧ locks saved = locks w.
Proof.
  intros w o2.
  assert (H1 : outcome env_ok (calls w) ≠ Fault) by (simpl; congruence).
  assert (H2 : outcome env_ok (S (calls w)) ≠ Fault) by (simpl; congruence).
  split; [done|].
  exact (savePaymentOrder_then_getPaymentOrder env_ok env_ok "o2" o2 w H1 H2).
Defined.





(** ** The routes, further *)



Lemma releaseLock_None_settled env lockKey :
  stable (keeps settled_view) (releaseLock env lockKey None).
Proof.
  intros w. unfold releaseLock, bind, gets, roundTrip, keeps. simpl.
  destruct (lockCache w !! lockKey) as [c|]; simpl;
    destruct (outcome env (calls w)); reflexivity.
Qed.

Lemma isLocked_settled env lockKey : stable (keeps settled_view) (isLocked env lockKey).
Proof.
  pose proof (releaseLock_None_settled env lockKey).
  unfold isLocked. stable_auto.
Qed.








Lemma releaseLock_None_instance env lockKey :
  stable (keeps instance_view) (releaseLock env lockKey None).
Proof.
  eapply stable_weaken; [|apply releaseLock_None_settled].
  intros w w' [= _ _ _ _ H1 H2]. unfold keeps, instance_view. congruence.
Qed.

Lemma isLocked_instance env lockKey : stable (keeps instance_view) (isLocked env lockKey).
Proof.
  eapply stable_weaken; [|apply isLocked_settled].
  intros w w' [= _ _ _ _ H1 H2]. unfold keeps, instance_view. congruence.
Qed.

Lemma verify_checks_instance env config body amountNum lockKey :
  stable (keeps instance_view)
    (try_catch (verify_checks env config body amountNum lockKey)
       (release_and_rethrow env lockKey)).
Proof.
  pose proof (releaseLock_None_instance env).
  pose proof (isLocked_instance env).
  unfold verify_checks, verify_matching, verify_settle, release_and_rethrow,
    getPaymentOrder, getUPIDetails, updatePaymentOrder, updateWalletBalance, checkExpiry.
  cbv zeta. stable_auto.
Qed.

(** X24. After a [/verify] that took its lock, whatever its outcome, the
    same instance answers 409 VERIFICATION_IN_PROGRESS to every [/verify] of
    that order for the next [PAYMENT_VERIFICATION_TIMEOUT] milliseconds,
    without a round trip: the handler releases without the token, which
    leaves the cache entry behind. *)
Theorem verify_again_on_the_instance_is_refused env config body amountNum w :
  well_formed body amountNum →
  verify_lock_available w body →
  outcome env (calls w) = Ok →
  let w1 := (verify env config body w).2 in
  ∀ env' body' amountNum' elapsed,
    well_formed body' amountNum' →
    v_orderId body' = v_orderId body →
    0 ≤ elapsed < PAYMENT_VERIFICATION_TIMEOUT config →
    let later := set_clock (fun t => t + elapsed) w1 in
    verify env' config body' later =
      (Val (reject 409 "VERIFICATION_IN_PROGRESS"), set_draws S later).
Proof.
  intros Hwf Hav Ho w1 env' body' amountNum' elapsed Hwf' Hid Hel later.
  assert (Hview : instance_view w1 =
            instance_view (acquired env (verifyLockKey (v_orderId body))
                             (PAYMENT_VERIFICATION_TIMEOUT config) w)).
  { subst w1. rewrite (verify_locked env config body amountNum w) by done.
    apply verify_checks_instance. }
  injection Hview as Hclock Hcache. simpl in Hclock, Hcache.
  unfold verify. rewrite (well_formed_validation _ _ Hwf').
  destruct Hwf' as (_ & _ & _ & _ & ->). cbv zeta.
  rewrite (bind_run _ _ later None (set_draws S later)); [reflexivity|].
  apply acquireLock_cached. subst later. simpl.
  rewrite Hid, Hcache, lookup_insert_eq, Hclock. simpl.
  apply Z.gtb_lt. lia.
Qed.

Lemma verify_again_on_the_instance_is_refused_witness :
  let w := world_at 1000 in
  (well_formed body1 100 ∧
   verify_lock_available w body1 ∧
   outcome env_ok (calls w) = Ok) ∧
  let w1 := (verify env_ok config_development body1 w).2 in
  ∀ env' body' amountNum' elapsed,
    well_formed body' amountNum' →
    v_orderId body' = v_orderId body1 →
    0 ≤ elapsed < PAYMENT_VERIFICATION_TIMEOUT config_development →
    let later := set_clock (fun t => t + elapsed) w1 in
    verify env' config_development body' later =
      (Val (reject 409 "VERIFICATION_IN_PROGRESS"), set_draws S later).
Proof.
  intros w.
  assert (H1 : well_formed body1 100) by (repeat split; discriminate).
  assert (H2 : verify_lock_available w body1) by (split; reflexivity).
  assert (H3 : outcome env_ok (calls w) = Ok) by reflexivity.
  split; [done|].
  exact (verify_again_on_the_instance_is_refused env_ok config_development body1 100 w
           H1 H2 H3).
Defined.

(** X25. [GET /order] never releases the lock it takes for the lazy expiry.
    After it has expired an order, or failed to because the status write was
    refused, the order lock is held in the store and cached on the instance,
    and the next [GET] of that order answers 400 ORDER_LOCKED. *)
Theorem getOrder_leaves_the_order_locked env config orderId w o :
  orderId ≠ "" →
  payments w !! orderId = Some o →
  o_status o = PENDING →
  expiresAt_or_default (ORDER_EXPIRY_MINUTES config) o ≤ clock w →
  order_lock_absent w orderId →
  outcome env (calls w) ≠ Fault →
  outcome env (S (calls w)) ≠ Fault →
  outcome env (S (S (calls w))) = Ok →
  0 < ORDER_LOCK_TIMEOUT config →
  let r := getOrder env config orderId w in
  r.1 = Val (mkResponse 200 true None
               (Some (if decide (outcome env (S (S (S (calls w)))) = Fault)
                      then PENDING else EXPIRED)) None) ∧
  status_of r.2 orderId =
    Some (if decide (outcome env (S (S (S (calls w)))) = Fault) then PENDING else EXPIRED) ∧
  lock_held r.2 (orderLockKey orderId) = true ∧
  ∀ env', outcome env' (calls r.2) ≠ Fault →
    (getOrder env' config orderId r.2).1 =
      Val (mkResponse 400 false (Some "ORDER_LOCKED") (status_of r.2 orderId) None).
Proof.
  intros Hid Hp Hs He [Hc Hl] Ho0 Ho1 Ho2 Ht r.
  set (key := orderLockKey orderId) in *.
  set (w2 := set_calls S (set_calls S w)).
  set (w3 := acquired env key (ORDER_LOCK_TIMEOUT config) w2).
  assert (Hrun : ∃ w', r = (Val (mkResponse 200 true None
               (Some (if decide (outcome env (S (S (S (calls w)))) = Fault)
                      then PENDING else EXPIRED)) None), w') ∧
            status_of w' orderId =
              Some (if decide (outcome env (S (S (S (calls w)))) = Fault)
                    then PENDING else EXPIRED) ∧
            locks w' = locks w3 ∧ lockCache w' = lockCache w3 ∧ clock w' = clock w).
  { subst r. unfold getOrder. unfold missing. rewrite bool_decide_eq_false_2 by done.
    erewrite bind_run by (by apply getPaymentOrder_run). rewrite Hp. cbv iota.
    erewrite bind_run by (by apply isLocked_absent_run). cbv iota.
    erewrite bind_run by reflexivity. cbv zeta. wsimpl.
    replace (Z.max 0 (expiresAt_or_default (ORDER_EXPIRY_MINUTES config) o - clock w) =? 0)
      with true by (symmetry; apply Z.eqb_eq; lia).
    rewrite Hs, bool_decide_eq_true_2 by done. cbn [andb].
    unfold try_catch, bind at 1.
    unfold bind at 1. unfold MAX_LOCK_ATTEMPTS. fold key.
    change (set_calls S (set_calls S w)) with w2.
    rewrite (acquireLock_first_try env key (ORDER_LOCK_TIMEOUT config) 2 w2);
      [|exact Hc|exact Ho2|by unfold lock_free; simpl; rewrite Hl].
    fold w3.
    unfold bind, updatePaymentOrder, bind, roundTrip, Date_now, gets, modify, ret, throw.
    simpl.
    destruct (outcome env (S (S (S (calls w))))) eqn:Ho3; simpl.
    - eexists; split; [reflexivity|]. unfold status_of. simpl.
      rewrite lookup_insert_eq, Hp. done.
    - eexists; split; [reflexivity|]. unfold status_of. simpl.
      rewrite lookup_insert_eq, Hp. done.
    - eexists; split; [reflexivity|]. unfold status_of. simpl. rewrite Hp. simpl. by rewrite Hs. }
  destruct Hrun as (w' & Hr & Hst & Hlocks & Hcache & Hclock).
  rewrite Hr. cbn [fst snd]. split; [done|]. split; [done|].
  assert (Hlive : cache_live (clock w') (lockCache w' !! key) = true).
  { rewrite Hcache, Hclock. unfold w3, acquired. simpl. rewrite lookup_insert_eq. simpl.
    apply Z.gtb_lt. lia. }
  split.
  - unfold lock_held. rewrite Hlocks, Hclock. unfold w3, acquired. simpl.
    rewrite lookup_insert_eq. simpl. apply negb_true_iff, Z.ltb_ge. lia.
  - intros env' Ho'. unfold getOrder, missing. rewrite bool_decide_eq_false_2 by done.
    erewrite bind_run by (by apply getPaymentOrder_run).
    unfold status_of in *. destruct (payments w' !! orderId) as [o'|] eqn:Hp'; [|done].
    cbv iota. erewrite bind_run by (apply isLocked_cached; exact Hlive).
    simpl. done.
Qed.

Lemma getOrder_leaves_the_order_locked_witness :
  let w := world_at 400000 in
  let cfg := config_development in
  ("o1" ≠ "" ∧
   payments w !! "o1" = Some order1 ∧
   o_status order1 = PENDING ∧
   expiresAt_or_default (ORDER_EXPIRY_MINUTES cfg) order1 ≤ clock w ∧
   order_lock_absent w "o1" ∧
   outcome env_ok (calls w) ≠ Fault ∧
   outcome env_ok (S (calls w)) ≠ Fault ∧
   outcome env_ok (S (S (calls w))) = Ok ∧
   0 < ORDER_LOCK_TIMEOUT cfg) ∧
  let r := getOrder env_ok cfg "o1" w in
  r.1 = Val (mkResponse 200 true None
               (Some (if decide (outcome env_ok (S (S (S (calls w)))) = Fault)
                      then PENDING else EXPIRED)) None) ∧
  status_of r.2 "o1" =
    Some (if decide (outcome env_ok (S (S (S (calls w)))) = Fault)
          then PENDING else EXPIRED) ∧
  lock_held r.2 (orderLockKey "o1") = true ∧
  ∀ env', outcome env' (calls r.2) ≠ Fault →
    (getOrder env' cfg "o1" r.2).1 =
      Val (mkResponse 400 false (Some "ORDER_LOCKED") (status_of r.2 "o1") None).
Proof.
  intros w cfg.
  assert (H1 : "o1" ≠ "") by discriminate.
  assert (H2 : payments w !! "o1" = Some order1) by reflexivity.
  assert (H3 : o_status order1 = PENDING) by reflexivity.
  assert (H4 : expiresAt_or_default (ORDER_EXPIRY_MINUTES cfg) order1 ≤ clock w)
    by (vm_compute; congruence).
  assert (H5 : order_lock_absent w "o1") by (split; reflexivity).
  assert (H6 : outcome env_ok (calls w) ≠ Fault) by (simpl; congruence).
  assert (H7 : outcome env_ok (S (calls w)) ≠ Fault) by (simpl; congruence).
  assert (H8 : outcome env_ok (S (S (calls w))) = Ok) by reflexivity.
  assert (H9 : 0 < ORDER_LOCK_TIMEOUT cfg) by (simpl; lia).
  split; [auto 20|].
  exact (getOrder_leaves_the_order_locked env_ok cfg "o1" w order1
           H1 H2 H3 H4 H5 H6 H7 H8 H9).
Defined.



Global Instance expires_only_preorder : PreOrder expires_only.
Proof.
  split; [intros w id; by left|].
  intros a b c H1 H2 id. destruct (H2 id) as [E|E]; [|by right].
  destruct (H1 id) as [E1|E1]; [left; congruence|right].
  unfold status_of in *. by rewrite E.
Qed.

Lemma ledgers_expires_only w w' : keeps ledgers w w' → expires_only w w'.
Proof. intros [= H _ _] id. left. by rewrite H. Qed.

Lemma updatePaymentOrder_expires_only env orderId updateData :
  stable expires_only (updatePaymentOrder env orderId EXPIRED updateData).
Proof.
  intros w id. unfold updatePaymentOrder, bind, roundTrip, status_of. simpl.
  destruct (outcome env (calls w)); simpl; try by left.
  all: destruct (decide (id = orderId)) as [->|Hne];
    [right; rewrite lookup_insert_eq; simpl; by rewrite apply_update_status
    |left; by rewrite lookup_insert_ne].
Qed.

Lemma expire_one_expires_only env config currentTime n entry :
  stable expires_only (expire_one env config currentTime n entry).
Proof.
  pose proof (updatePaymentOrder_expires_only env).
  assert (∀ k t m, stable expires_only (acquireLock env k t m)).
  { intros. eapply stable_weaken; [apply ledgers_expires_only|apply acquireLock_ledgers]. }
  assert (∀ k t, stable expires_only (releaseLock env k t)).
  { intros. eapply stable_weaken; [apply ledgers_expires_only|apply releaseLock_ledgers]. }
  destruct entry as [orderId order]. unfold expire_one. cbv zeta. stable_auto.
Qed.

Lemma expire_one_in_time env config currentTime n orderId order w :
  ¬ overdue config currentTime order →
  expire_one env config currentTime n (orderId, order) w = (Val n, w).
Proof.
  intros Hin. unfold expire_one, overdue in *. cbv zeta.
  replace (currentTime - o_createdAt order >? ORDER_EXPIRY_MINUTES config * 60 * 1000)
    with false by (symmetry; rewrite Z.gtb_ltb; apply Z.ltb_ge; lia).
  reflexivity.
Qed.

Lemma expire_one_wallets env config currentTime n entry :
  stable (keeps wallets) (expire_one env config currentTime n entry).
Proof. destruct entry. unfold expire_one. cbv zeta. stable_auto. Qed.

Lemma expire_each_spec env config currentTime orders : ∀ n w,
  let r := expire_each env config currentTime n orders w in
  touches (fun orderId => ∃ order, (orderId, order) ∈ orders ∧
                                    overdue config currentTime order) w r.2 ∧
  expires_only w r.2 ∧
  wallets r.2 = wallets w ∧
  ∃ k, r.1 = Val k ∧ (n ≤ k ≤ n + length orders)%nat.
Proof.
  induction orders as [|[orderId order] rest IH]; intros n w.
  - simpl. split; [by intros ? ?|]. split; [reflexivity|]. split; [done|].
    exists n. split; [done|lia].
  - cbn [expire_each length]. cbv zeta. unfold bind.
    pose proof (expire_one_touches env config currentTime n orderId order w) as Ht.
    pose proof (expire_one_expires_only env config currentTime n (orderId, order) w) as He.
    pose proof (expire_one_wallets env config currentTime n (orderId, order) w) as Hw.
    assert (Hn : ∃ k, (expire_one env config currentTime n (orderId, order) w).1 = Val k
                      ∧ (n ≤ k ≤ S n)%nat).
    { change (post (expire_one env config currentTime n (orderId, order)) w
                (fun r _ => ∃ k, r = Val k ∧ (n ≤ k ≤ S n)%nat)).
      unfold expire_one. cbv zeta.
      repeat (first [wp_lock | wp_step]).
      all: try (eexists; split; [reflexivity|lia]).
      all: eapply post_stable; [apply updatePaymentOrder_wallets|]; intros [[]|] ? _.
      all: repeat (first [wp_lock | wp_step]).
      all: try (eexists; split; [reflexivity|lia]). }
    assert (Hskip : ¬ overdue config currentTime order →
              (expire_one env config currentTime n (orderId, order) w).2 = w).
    { intros Hin. by rewrite expire_one_in_time. }
    unfold keeps in Hw.
    destruct (expire_one env config currentTime n (orderId, order) w) as [[k|e] w1] eqn:E;
      cbn [fst snd] in *; destruct Hn as (k' & [=] & Hk); subst k'.
    destruct (IH k w1) as (IHt & IHe & IHw & k2 & IHk & Hk2).
    split; [|split; [|split]].
    + intros id Hid. rewrite IHt.
      * destruct (decide (ORDER_EXPIRY_MINUTES config * 60 * 1000
                          < currentTime - o_createdAt order)) as [Hov|Hin].
        -- apply Ht. intros <-. apply Hid. exists order. split; [apply list_elem_of_here|done].
        -- by rewrite Hskip.
      * intros (o & Ho & Hov). apply Hid. exists o. split; [by apply list_elem_of_further|done].
    + etrans; [exact He|exact IHe].
    + rewrite IHw. exact Hw.
    + exists k2. split; [done|lia].
Qed.

(** X27. The batch sweep, whatever the store answers: an order younger than
    the expiry window at the start of the sweep is left as it is; every
    order the sweep changes was PENDING and is EXPIRED afterwards; no wallet
    changes; and the count returned is at most the batch size. *)
Theorem expirePendingOrders_expires_only_overdue_orders env config batchSize w :
  let r := expirePendingOrders env config batchSize w in
  (∀ orderId order, payments w !! orderId = Some order →
     ¬ overdue config (clock w) order →
     payments r.2 !! orderId = Some order) ∧
  (∀ orderId, payments r.2 !! orderId ≠ payments w !! orderId →
     status_of w orderId = Some PENDING ∧ status_of r.2 orderId = Some EXPIRED) ∧
  wallets r.2 = wallets w ∧
  (∀ count, r.1 = Val count → (count ≤ batchSize)%nat).
Proof.
  intros r. subst r.
  pose proof (expirePendingOrders_only_pending env config batchSize w) as Hpending.
  unfold expirePendingOrders, bind, roundTrip, gets, Date_now, gets in *. simpl in *.
  assert (Hlen : (length (pending_snapshot batchSize (payments w)) ≤ batchSize)%nat).
  { unfold pending_snapshot. rewrite length_take. lia. }
  assert (Hsnap : ∀ orderId order,
            (orderId, order) ∈ pending_snapshot batchSize (payments w) →
            payments w !! orderId = Some order).
  { unfold pending_snapshot. intros id o Hin.
    apply elem_of_take in Hin as (i & Hin & _).
    apply list_elem_of_lookup_2 in Hin.
    apply list_elem_of_filter in Hin as [_ Hin].
    by apply elem_of_map_to_list in Hin. }
  destruct (outcome env (calls w)); simpl in *.
  3: by repeat split.
  all: destruct (pending_snapshot batchSize (payments w)) as [|e l] eqn:Hs;
    [simpl; repeat split; try done; try (intros ? [= <-]; lia)|].
  all: rewrite <- Hs in *.
  all: destruct (expire_each_spec env config (clock w)
                   (pending_snapshot batchSize (payments w)) O (set_calls S w))
         as (Ht & He & Hw & k & Hk & Hkb); simpl in *.
  all: split; [|split; [|split]].
  all: try (intros id o Hp Hin; rewrite Ht; [exact Hp|];
            intros (o' & Hin' & Hov); apply Hsnap in Hin'; congruence).
  all: try (intros id Hne; destruct (He id) as [E|E]; [done|]; split; [|exact E];
            destruct (decide (status_of w id = Some PENDING)) as [|Hnp]; [done|];
            exfalso; apply Hne; by apply Hpending).
  all: try exact Hw.
  all: intros count Hc; rewrite Hk in Hc; injection Hc as <-; lia.
Qed.

(** X28. [/create] always answers. On success, and only then, it has stored
    one order: PENDING, for the amount and user of the request and the
    configured destination, created now and expiring
    [ORDER_EXPIRY_MINUTES] later, replacing whatever the identifier held;
    the amount lies within the limits. No wallet and no lock is touched. *)
Theorem create_stores_the_order_it_reports env config limits orderId body w :
  let r := create env config limits orderId body w in
  ∃ response, r.1 = Val response ∧
    wallets r.2 = wallets w ∧ locks r.2 = locks w ∧
    if success response then
      ∃ amountNum upi,
        http response = 201 ∧
        positive_amount (cr_amount body) = Some amountNum ∧
        MIN_AMOUNT limits ≤ amountNum ≤ MAX_AMOUNT limits ∧
        cr_userId body ≠ "" ∧
        upiDetails w = Some upi ∧
        payments r.2 =
          <[orderId := mkOrder orderId amountNum (cr_userId body) upi PENDING (clock w)
                         (Some (calculateExpiryTime (clock w) (ORDER_EXPIRY_MINUTES config)))
                         None ∅]> (payments w)
    else payments r.2 = payments w.
Proof.
  cbv zeta.
  change (post (create env config limits orderId body) w (fun r w' =>
    ∃ response, r = Val response ∧
    wallets w' = wallets w ∧ locks w' = locks w ∧
    if success response then
      ∃ amountNum upi,
        http response = 201 ∧
        positive_amount (cr_amount body) = Some amountNum ∧
        MIN_AMOUNT limits ≤ amountNum ≤ MAX_AMOUNT limits ∧
        cr_userId body ≠ "" ∧
        upiDetails w = Some upi ∧
        payments w' =
          <[orderId := mkOrder orderId amountNum (cr_userId body) upi PENDING (clock w)
                         (Some (calculateExpiryTime (clock w) (ORDER_EXPIRY_MINUTES config)))
                         None ∅]> (payments w)
    else payments w' = payments w)).
  unfold create, getUPIDetails, savePaymentOrder.
  repeat (wp_step; try solve [eexists; split; [reflexivity|]; simpl; done]).
  all: wsimpl.
  all: eexists; (split; [reflexivity|]); simpl; (split; [done|]); (split; [done|]).
  all: match goal with
       | H : _ || missing (cr_userId _) = false |- _ =>
         apply orb_false_iff in H as [_ H]; apply bool_decide_eq_false in H
       end.
  all: match goal with
       | H : (_ <? _) || (_ >? _) = false |- _ =>
         apply orb_false_iff in H as [H1 H2];
         apply Z.ltb_ge in H1; rewrite Z.gtb_ltb in H2; apply Z.ltb_ge in H2
       end.
  all: eexists _, _; repeat split; try done.
Qed.

(** X29. With a positive lower limit, [/create] answers 400 for a request
    that names a user exactly when [config.validateAmount] rejects its
    amount: the inline checks of the route and the configuration's predicate
    agree. *)
Theorem create_rejects_what_validateAmount_rejects env config limits orderId body w
    response :
  0 < MIN_AMOUNT limits →
  cr_userId body ≠ "" →
  (create env config limits orderId body w).1 = Val response →
  http response = 400 ↔ validateAmount limits (cr_amount body) = false.
Proof.
  intros Hmin Hu. revert response.
  change (post (create env config limits orderId body) w (fun r _ =>
    ∀ response, r = Val response →
      http response = 400 ↔ validateAmount limits (cr_amount body) = false)).
  assert (Hmiss : missing (cr_userId body) = false) by by apply bool_decide_eq_false.
  unfold create, getUPIDetails, savePaymentOrder. rewrite Hmiss, orb_false_r.
  repeat wp_step.
  all: intros ? [= <-]; simpl.
  all: unfold validateAmount, amount_missing, positive_amount in *.
  all: destruct (cr_amount body) as [| |amount]; simplify_eq; try done.
  all: repeat match goal with
       | H : (if ?b then _ else _) = _ |- _ => destruct b eqn:?; simplify_eq
       | H : _ || _ = false |- _ => apply orb_false_iff in H as [? ?]
       | H : _ || _ = true |- _ => apply orb_true_iff in H
       end.
  all: rewrite ?Z.gtb_ltb in *.
  all: repeat match goal with
       | H : (_ <? _) = true |- _ => apply Z.ltb_lt in H
       | H : (_ <? _) = false |- _ => apply Z.ltb_ge in H
       | H : (_ <=? _) = true |- _ => apply Z.leb_le in H
       | H : (_ <=? _) = false |- _ => apply Z.leb_gt in H
       | H : (_ =? _) = true |- _ => apply Z.eqb_eq in H
       | H : (_ =? _) = false |- _ => apply Z.eqb_neq in H
       end.
  all: split; try done.
  all: try (intros _; apply andb_false_iff; rewrite !Z.leb_gt; lia).
  all: intros Hv; exfalso; apply andb_false_iff in Hv; rewrite !Z.leb_gt in Hv; lia.
Qed.

Lemma create_rejects_what_validateAmount_rejects_witness :
  let w := world_at 1000 in
  let body := mkCreateBody (AmountNum 5) "bob" in
  let response := reject 400 "AMOUNT_LIMIT_ERROR" in
  (0 < MIN_AMOUNT limits_development ∧
   cr_userId body ≠ "" ∧
   (create env_ok config_development limits_development "o2" body w).1 = Val response) ∧
  (http response = 400 ↔ validateAmount limits_development (cr_amount body) = false).
Proof.
  intros w body response.
  assert (H1 : 0 < MIN_AMOUNT limits_development) by (simpl; lia).
  assert (H2 : cr_userId body ≠ "") by discriminate.
  assert (H3 : (create env_ok config_development limits_development "o2" body w).1
               = Val response) by (vm_compute; reflexivity).
  split; [done|].
  exact (create_rejects_what_validateAmount_rejects env_ok config_development
           limits_development "o2" body w response H1 H2 H3).
Defined.

(** X30. [getRemainingTime]: the total is never negative; seconds and
    minutes stay below 60 and hours below 24, and below one day they add up
    to the total in whole seconds; [isExpired] holds exactly from the expiry
    instant on, hence whenever [checkExpiry] holds; and before it the total
    is the distance to the expiry instant. *)
Theorem getRemainingTime_at_decomposes currentTime createdAt expiryMinutes :
  let t := getRemainingTime_at currentTime createdAt expiryMinutes in
  0 ≤ totalMs t ∧
  0 ≤ rt_seconds t < 60 ∧ 0 ≤ rt_minutes t < 60 ∧ 0 ≤ rt_hours t < 24 ∧
  (totalMs t < 24 * 60 * 60 * 1000 →
   totalMs t / 1000 = rt_hours t * 3600 + rt_minutes t * 60 + rt_seconds t) ∧
  (rt_isExpired t = true ↔ calculateExpiryTime createdAt expiryMinutes ≤ currentTime) ∧
  (checkExpiry_at currentTime createdAt expiryMinutes = true → rt_isExpired t = true) ∧
  (rt_isExpired t = false → currentTime + totalMs t = rt_expiryTime t).
Proof.
  unfold getRemainingTime_at. cbv zeta. simpl.
  set (e := calculateExpiryTime createdAt expiryMinutes).
  set (ms := Z.max 0 (e - currentTime)).
  assert (Hms : 0 ≤ ms) by (unfold ms; lia).
  split; [done|].
  split; [apply Z.mod_pos_bound; lia|].
  split; [apply Z.mod_pos_bound; lia|].
  split; [apply Z.mod_pos_bound; lia|].
  split.
  - intros Hday.
    change (1000 * 60 * 60) with 3600000. change (1000 * 60) with 60000.
    assert (H1 : ms / 3600000 < 24) by (apply Z.div_lt_upper_bound; lia).
    assert (H0 : 0 ≤ ms / 3600000) by (apply Z.div_pos; lia).
    rewrite (Z.mod_small (ms / 3600000) 24) by lia.
    pose proof (Z.div_mod ms 1000 ltac:(lia)) as D1.
    pose proof (Z.mod_pos_bound ms 1000 ltac:(lia)) as B1.
    set (s := ms / 1000) in *.
    replace (ms / 60000) with (s / 60)
      by (unfold s; rewrite Z.div_div by lia; reflexivity).
    replace (ms / 3600000) with (s / 3600)
      by (unfold s; rewrite Z.div_div by lia; reflexivity).
    assert (Hs : 0 ≤ s) by (unfold s; apply Z.div_pos; lia).
    pose proof (Z.div_mod s 60 ltac:(lia)) as D2.
    pose proof (Z.div_mod (s / 60) 60 ltac:(lia)) as D3.
    replace (s / 60 / 60) with (s / 3600) in D3 by (rewrite Z.div_div by lia; reflexivity).
    lia.
  - split; [|split].
    + rewrite Z.eqb_eq. unfold ms. lia.
    + unfold checkExpiry_at. fold e. rewrite Z.gtb_ltb, Z.ltb_lt, Z.eqb_eq. unfold ms. lia.
    + rewrite Z.eqb_neq. unfold ms. lia.
Qed.
